(** * 2048game.py: the grid, move resolution, spawning and game-over detection

    A shallow embedding of [src/2048game.py].  Python integers are [Z], a
    cell is [option Z] ([None] or an int), the 2d array [data] is a list of
    rows.  Failing code returns in [res]: a raised exception, or a loop cut
    off because the fuel (or the random tape) ran out.  The methods that
    touch one grid only pass that grid along; sessions and their grids are
    objects in a store, so that [copy.deepcopy] and the in-place moves on
    the copies are what they are in the program.  Of the drawing code,
    [getTileColor] is modelled; [drawTo] and [main], which talk to pygame,
    are not. *)

From Stdlib Require Import Ascii.
From stdpp Require Import base numbers list option gmap strings.

Local Open Scope Z_scope.

(** ** Results of fallible code *)

Inductive exn :=
  AssertionError | IndexError | ValueError | TypeError | AttributeError.

Inductive res (A : Type) :=
  | Ok (a : A)
  | Raise (e : exn)
  | OutOfFuel.
Arguments Ok {A} a.
Arguments Raise {A} e.
Arguments OutOfFuel {A}.

#[global] Instance res_ret : MRet res := @Ok.
#[global] Instance res_bind : MBind res := λ A B f m,
  match m with
  | Ok a => f a
  | Raise e => Raise e
  | OutOfFuel => OutOfFuel
  end.

(** [for a in l: g = f(a, g)] with exceptions propagating. *)
Fixpoint foldM {A St : Type} (f : A → St → res St) (l : list A) (s : St)
  : res St :=
  match l with
  | [] => Ok s
  | a :: l' => s' ← f a s; foldM f l' s'
  end.

(** Python's [range(n)]; empty when [n <= 0]. *)
Definition range (n : Z) : list Z := seqZ 0 n.

(** [x in range(0, n)] for an integer [x]. *)
Definition in_range (x n : Z) : bool := bool_decide (0 ≤ x < n).

(** ** class Move(Enum) *)

Module Move.
Inductive t := up | down | left | right.

#[global] Instance eq_dec : EqDecision t.
Proof. solve_decision. Defined.
End Move.

(** ** class GameState *)

Module GameState.

Record t := mk { size : Z; data : list (list (option Z)) }.

#[global] Instance eq_dec : EqDecision t.
Proof. solve_decision. Defined.

(** [__init__]: [data = [[None for x in range(size)] for y in range(size)]]. *)
Definition init (size : Z) : t :=
  {| size := size;
     data := (λ _, (λ _, None) <$> range size) <$> range size |}.

(** [getItem]: the assertion, then [self.data[y][x]]. *)
Definition getItem (self : t) (x y : Z) : res (option Z) :=
  if in_range x (size self) && in_range y (size self) then
    match data self !! Z.to_nat y with
    | Some row =>
        match row !! Z.to_nat x with
        | Some v => Ok v
        | None => Raise IndexError
        end
    | None => Raise IndexError
    end
  else Raise AssertionError.

(** [setItem]: the assertion, then [self.data[y][x] = newVal]. *)
Definition setItem (self : t) (x y : Z) (newVal : option Z) : res t :=
  if in_range x (size self) && in_range y (size self) then
    match data self !! Z.to_nat y with
    | Some row =>
        if bool_decide (Z.to_nat x < length row)%nat then
          Ok {| size := size self;
                data := <[Z.to_nat y := <[Z.to_nat x := newVal]> row]>
                          (data self) |}
        else Raise IndexError
    | None => Raise IndexError
    end
  else Raise AssertionError.

(** The inner loop of [__eq__] over one row; [Ok false] is the early
    [return False]. *)
Fixpoint eq_row (self other : t) (y : Z) (xs : list Z) : res bool :=
  match xs with
  | [] => Ok true
  | x :: xs' =>
      a ← getItem self x y;
      b ← getItem other x y;
      if bool_decide (a ≠ b) then Ok false else eq_row self other y xs'
  end.

Fixpoint eq_rows (self other : t) (ys : list Z) : res bool :=
  match ys with
  | [] => Ok true
  | y :: ys' =>
      eq_row self other y (range (size self)) ≫= λ r : bool,
      if r then eq_rows self other ys' else Ok false
  end.

(** [__eq__] *)
Definition eq (self other : t) : res bool :=
  if bool_decide (size self ≠ size other) then Ok false
  else eq_rows self other (range (size self)).

(** [[f(self.getItem(x,y)) for x in range(size) for y in range(size)]]:
    the list comprehension of [nextMove] and [checkIfGameOver]
    (x outer, y inner). *)
Definition comprehension {A} (f : option Z → A) (self : t) : res (list A) :=
  foldM (λ (x : Z) (acc : list A),
           foldM (λ (y : Z) (acc : list A),
                    v ← getItem self x y; Ok (acc ++ [f v]))
                 (range (size self)) acc)
        (range (size self)) [].

End GameState.

(** ** The store: objects, references and the random source

    [copy.deepcopy(self)] in [checkIfGameOver] makes new [GameSession] and
    [GameState] objects; the moves applied to the copies mutate those objects
    in place.  A session object holds a reference to its grid object.
    [tape] is the sequence of raw numbers the random generator will produce. *)

Definition loc := nat.

Record SessionObj := mkSession { gameState : loc; isGameOver : bool }.

Record World := mkWorld {
  sessions : gmap loc SessionObj;
  grids : gmap loc GameState.t;
  tape : list Z
}.

Definition M (A : Type) : Type := World → res (A * World).

#[global] Instance M_ret : MRet M := λ A a w, Ok (a, w).
#[global] Instance M_bind : MBind M := λ A B f m w,
  match m w with
  | Ok (a, w') => f a w'
  | Raise e => Raise e
  | OutOfFuel => OutOfFuel
  end.

(** A computation that does not touch the store. *)
Definition lift {A} (r : res A) : M A := λ w,
  match r with
  | Ok a => Ok (a, w)
  | Raise e => Raise e
  | OutOfFuel => OutOfFuel
  end.

(** [for a in l: f(a)] *)
Fixpoint forM_ {A} (f : A → M unit) (l : list A) : M unit :=
  match l with
  | [] => mret ()
  | a :: l' => f a ≫= λ _ : unit, forM_ f l'
  end.

Definition read_session (self : loc) : M SessionObj := λ w,
  match sessions w !! self with
  | Some s => Ok (s, w)
  | None => Raise AttributeError
  end.

Definition read_grid (l : loc) : M GameState.t := λ w,
  match grids w !! l with
  | Some g => Ok (g, w)
  | None => Raise AttributeError
  end.

Definition write_grid (l : loc) (g : GameState.t) : M unit := λ w,
  Ok ((), {| sessions := sessions w; grids := <[l := g]> (grids w);
             tape := tape w |}).

Definition alloc_grid (g : GameState.t) : M loc := λ w,
  let l := fresh (dom (grids w)) in
  Ok (l, {| sessions := sessions w; grids := <[l := g]> (grids w);
            tape := tape w |}).

Definition alloc_session (s : SessionObj) : M loc := λ w,
  let l := fresh (dom (sessions w)) in
  Ok (l, {| sessions := <[l := s]> (sessions w); grids := grids w;
            tape := tape w |}).

(** [self.isGameOver = b] *)
Definition set_isGameOver (self : loc) (b : bool) : M unit := λ w,
  match sessions w !! self with
  | Some s =>
      Ok ((), {| sessions := <[self := mkSession (gameState s) b]> (sessions w);
                 grids := grids w; tape := tape w |})
  | None => Raise AttributeError
  end.

(** [self.gameState], dereferenced. *)
Definition state_of (self : loc) : M GameState.t :=
  s ← read_session self; read_grid (gameState s).

(** A method that mutates the grid object [self.gameState] in place and
    nothing else. *)
Definition on_state (self : loc) (f : GameState.t → res GameState.t) : M unit :=
  s ← read_session self;
  g ← read_grid (gameState s);
  g' ← lift (f g);
  write_grid (gameState s) g'.

(** [copy.deepcopy(self)] for a session: a new grid object with the same
    contents and a new session object that refers to it. *)
Definition deepcopy (self : loc) : M loc :=
  s ← read_session self;
  g ← read_grid (gameState s);
  l ← alloc_grid g;
  alloc_session (mkSession l (isGameOver s)).

(** [random.randint(a, b)]: the next raw number of the tape, brought into
    [a..b]; [ValueError] on an empty interval. *)
Definition randint (a b : Z) (tp : list Z) : res (Z * list Z) :=
  if bool_decide (b < a) then Raise ValueError
  else match tp with
       | [] => OutOfFuel
       | r :: tp' => Ok (a + r `mod` (b - a + 1), tp')
       end.

(** [startVal + endVal] on cell contents. *)
Definition add_items (a b : option Z) : res (option Z) :=
  match a, b with
  | Some u, Some v => Ok (Some (u + v))
  | _, _ => Raise TypeError
  end.

(** ** class GameSession *)

Module GameSession.

(** *** Methods that work on the grid [self.gameState] only: the grid is
    passed and returned. *)

Definition shiftOneItemTo (startCoords endCoords : Z * Z) (g : GameState.t)
  : res GameState.t :=
  startVal ← GameState.getItem g startCoords.1 startCoords.2;
  endVal ← GameState.getItem g endCoords.1 endCoords.2;
  if bool_decide (endVal = None) then
    g1 ← GameState.setItem g endCoords.1 endCoords.2 startVal;
    GameState.setItem g1 startCoords.1 startCoords.2 None
  else if bool_decide (startVal = endVal) then
    sm ← add_items startVal endVal;
    g1 ← GameState.setItem g endCoords.1 endCoords.2 sm;
    GameState.setItem g1 startCoords.1 startCoords.2 None
  else Ok g.

(** The body of the two [for] loops of [moveAllItemsInDir] at cell (x, y). *)
Definition visit (move : Move.t) (x y : Z) (g : GameState.t)
  : res GameState.t :=
  v ← GameState.getItem g x y;
  if bool_decide (v = None) then Ok g
  else if bool_decide (move = Move.up) && bool_decide (y > 0) then
    shiftOneItemTo (x, y) (x, y - 1) g
  else if bool_decide (move = Move.down)
          && bool_decide (y < GameState.size g - 1) then
    shiftOneItemTo (x, y) (x, y + 1) g
  else if bool_decide (move = Move.left) && bool_decide (x > 0) then
    shiftOneItemTo (x, y) (x - 1, y) g
  else if bool_decide (move = Move.right)
          && bool_decide (x < GameState.size g - 1) then
    shiftOneItemTo (x, y) (x + 1, y) g
  else Ok g.

(** One run of the two nested [for] loops: y outer, x inner. *)
Definition pass (move : Move.t) (g : GameState.t) : res GameState.t :=
  foldM (λ (y : Z) (g : GameState.t),
           foldM (λ (x : Z) (g : GameState.t), visit move x y g)
                 (range (GameState.size g)) g)
        (range (GameState.size g)) g.

(** The [while not self.gameState == lastState] loop; [fuel] bounds the
    number of times the body runs. *)
Fixpoint loop (fuel : nat) (move : Move.t) (g lastState : GameState.t)
  : res GameState.t :=
  GameState.eq g lastState ≫= λ same : bool,
  if same then Ok g
  else match fuel with
       | O => OutOfFuel
       | S fuel' => g' ← pass move g; loop fuel' move g' g
       end.

Definition moveAllItemsInDir_state (fuel : nat) (move : Move.t)
    (g : GameState.t) : res GameState.t :=
  loop fuel move g (GameState.init (GameState.size g)).

(** The [while True] loop of [addNumToRandomPoint]. *)
Fixpoint sample (fuel : nat) (val : Z) (g : GameState.t) (tp : list Z)
  : res (GameState.t * list Z) :=
  match fuel with
  | O => OutOfFuel
  | S fuel' =>
      randint 0 (GameState.size g - 1) tp ≫= λ '(x, tp1),
      randint 0 (GameState.size g - 1) tp1 ≫= λ '(y, tp2),
      v ← GameState.getItem g x y;
      if bool_decide (v = None) then
        g' ← GameState.setItem g x y (Some val); Ok (g', tp2)
      else sample fuel' val g tp2
  end.

(** Every turn of the loop draws two numbers, so the loop cannot turn more
    often than the tape is long. *)
Definition addNumToRandomPoint_state (val : Z) (g : GameState.t)
    (tp : list Z) : res (GameState.t * list Z) :=
  sample (S (length tp)) val g tp.

(** *** The methods on session objects *)

(** [GameSession(size)] *)
Definition init (size : Z) : M loc :=
  l ← alloc_grid (GameState.init size);
  alloc_session (mkSession l false).

Definition moveAllItemsInDir (fuel : nat) (self : loc) (move : Move.t)
  : M unit :=
  on_state self (moveAllItemsInDir_state fuel move).

(** Run the sampler on the grid object at [l], drawing from the tape. *)
Definition sample_into (l : loc) (val : Z) (g : GameState.t) : M unit := λ w,
  match addNumToRandomPoint_state val g (tape w) with
  | Ok (g', tp') =>
      Ok ((), {| sessions := sessions w; grids := <[l := g']> (grids w);
                 tape := tp' |})
  | Raise e => Raise e
  | OutOfFuel => OutOfFuel
  end.

Definition addNumToRandomPoint (self : loc) (val : Z) : M unit :=
  s ← read_session self;
  g ← read_grid (gameState s);
  sample_into (gameState s) val g.

Definition movLs : list Move.t := [Move.up; Move.down; Move.left; Move.right].

Definition checkIfGameOver (fuel : nat) (self : loc) : M unit :=
  set_isGameOver self true ≫= λ _ : unit,
  state ← state_of self;
  cells ← lift (GameState.comprehension (λ v, bool_decide (v = None)) state);
  let isEmpty := forallb id cells in
  gameMoves ← mapM (λ _ : Z, deepcopy self) (range (Z.of_nat (length movLs)));
  forM_ (λ '(x, m), moveAllItemsInDir fuel x m) (zip gameMoves movLs)
    ≫= λ _ : unit,
  (* isEmpty or not all([...]): the list is built only if isEmpty is false *)
  (if isEmpty then mret true
   else sames ← mapM (λ x : loc,
                        a ← state_of self; b ← state_of x;
                        lift (GameState.eq a b)) gameMoves;
        mret (negb (forallb id sames)))
    ≫= λ cond : bool,
  if cond then set_isGameOver self false else mret ().

Definition nextMove (fuel : nat) (self : loc) (move : Move.t) : M unit :=
  moveAllItemsInDir fuel self move ≫= λ _ : unit,
  checkIfGameOver fuel self ≫= λ _ : unit,
  state ← state_of self;
  cells ← lift (GameState.comprehension (λ v, bool_decide (v ≠ None)) state);
  let isFull := forallb id cells in
  if negb isFull then addNumToRandomPoint self 2 else mret ().

End GameSession.

(** ** Vocabulary of the properties *)

(** A grid as [GameState.__init__] builds it and [setItem] keeps it:
    [size] rows of [size] cells. *)
Definition wf (g : GameState.t) : Prop :=
  length (GameState.data g) = Z.to_nat (GameState.size g) ∧
  Forall (λ row, length row = Z.to_nat (GameState.size g)) (GameState.data g).

(** The contents of cell (x, y); [None] outside the grid. *)
Definition cell (g : GameState.t) (x y : Z) : option Z :=
  if in_range x (GameState.size g) && in_range y (GameState.size g) then
    match GameState.data g !! Z.to_nat y with
    | Some row => default None (row !! Z.to_nat x)
    | None => None
    end
  else None.

(** The grid with cell (x, y) overwritten. *)
Definition upd (g : GameState.t) (x y : Z) (v : option Z) : GameState.t :=
  match GameState.data g !! Z.to_nat y with
  | Some row =>
      GameState.mk (GameState.size g)
        (<[Z.to_nat y := <[Z.to_nat x := v]> row]> (GameState.data g))
  | None => g
  end.

(** All coordinates of a grid of size [n], in the scan order of the two
    [for] loops (y outer, x inner). *)
Definition coords (n : Z) : list (Z * Z) :=
  y ← range n; x ← range n; [(x, y)].

Definition sumZ (l : list Z) : Z := foldr Z.add 0 l.

(** The sum over all cells of a weight that may depend on the position. *)
Definition wsum (w : Z → Z → option Z → Z) (g : GameState.t) : Z :=
  sumZ ((λ c : Z * Z, w c.1 c.2 (cell g c.1 c.2)) <$> coords (GameState.size g)).

(** The sum of the values on the board: over the rows of [data], and as a
    sum over the coordinates. *)
Definition total (g : GameState.t) : Z :=
  sumZ ((λ row, sumZ (default 0 <$> row)) <$> GameState.data g).

Definition cell_total (g : GameState.t) : Z := wsum (λ _ _ v, default 0 v) g.

(** The number of tiles on the board. *)
Definition tiles (g : GameState.t) : Z :=
  wsum (λ _ _ v, if v is Some _ then 1 else 0) g.

(** How many cells lie between (x, y) and the edge the move pushes to. *)
Definition dist (move : Move.t) (n x y : Z) : Z :=
  match move with
  | Move.up => y
  | Move.down => n - 1 - y
  | Move.left => x
  | Move.right => n - 1 - x
  end.

(** The total displacement of the tiles from the target edge. *)
Definition displacement (move : Move.t) (g : GameState.t) : Z :=
  wsum (λ x y v, if v is Some _ then dist move (GameState.size g) x y else 0) g.

(** The potential of the fixed-point loop: tile count plus displacement. *)
Definition potential (move : Move.t) (g : GameState.t) : Z :=
  tiles g + displacement move g.

(** The neighbour one step in the direction of the move, when the scan
    shifts to it. *)
Definition target (move : Move.t) (n x y : Z) : option (Z * Z) :=
  match move with
  | Move.up => if bool_decide (y > 0) then Some (x, y - 1) else None
  | Move.down => if bool_decide (y < n - 1) then Some (x, y + 1) else None
  | Move.left => if bool_decide (x > 0) then Some (x - 1, y) else None
  | Move.right => if bool_decide (x < n - 1) then Some (x + 1, y) else None
  end.

(** What [shiftOneItemTo], [visit] and [pass] do on a well-formed grid,
    as total functions. *)
Definition shift (s e : Z * Z) (g : GameState.t) : GameState.t :=
  match cell g e.1 e.2 with
  | None => upd (upd g e.1 e.2 (cell g s.1 s.2)) s.1 s.2 None
  | Some b =>
      if decide (cell g s.1 s.2 = Some b)
      then upd (upd g e.1 e.2 (Some (b + b))) s.1 s.2 None
      else g
  end.

Definition visit_fun (move : Move.t) (g : GameState.t) (c : Z * Z) : GameState.t :=
  match cell g c.1 c.2 with
  | None => g
  | Some _ =>
      match target move (GameState.size g) c.1 c.2 with
      | Some e => shift c e g
      | None => g
      end
  end.

Definition pass_fun (move : Move.t) (g : GameState.t) : GameState.t :=
  foldl (visit_fun move) g (coords (GameState.size g)).

(** A coordinate pair that lies on the grid. *)
Definition inside (g : GameState.t) (c : Z * Z) : Prop :=
  0 ≤ c.1 < GameState.size g ∧ 0 ≤ c.2 < GameState.size g.

(** What the inner loop of [__eq__] computes on row [y]. *)
Definition same_row (g1 g2 : GameState.t) (y : Z) (xs : list Z) : bool :=
  forallb (λ x, bool_decide (cell g1 x y = cell g2 x y)) xs.

(** [all([p(getItem(x, y)) for x in range(size) for y in range(size)])] *)
Definition all_cells (p : option Z → bool) (g : GameState.t) : bool :=
  forallb (λ c : Z * Z, p (cell g c.1 c.2)) (coords (GameState.size g)).

(** The grid [moveAllItemsInDir] returns, computed with fuel that suffices. *)
Definition settle (move : Move.t) (g : GameState.t) : GameState.t :=
  match GameSession.moveAllItemsInDir_state
          (S (Z.to_nat (potential move g))) move g with
  | Ok g' => g'
  | _ => g
  end.

(** Fuel that suffices for each of the four moves on [g]. *)
Definition enough (g : GameState.t) : nat :=
  S (Z.to_nat (Z.max (Z.max (potential Move.up g) (potential Move.down g))
                     (Z.max (potential Move.left g) (potential Move.right g)))).

(** The flag [checkIfGameOver] computes from the grid. *)
Definition game_over (g : GameState.t) : bool :=
  negb (all_cells (λ v, bool_decide (v = None)) g)
  && forallb (λ m, bool_decide (g = settle m g)) GameSession.movLs.

(** ** Vocabulary for the store *)

(** The grid and the flag of session [self] in a store. *)
Definition the_state (w : World) (self : loc) : option GameState.t :=
  o ← sessions w !! self; grids w !! gameState o.

Definition the_flag (w : World) (self : loc) : option bool :=
  isGameOver <$> sessions w !! self.

(** [w] holds everything [w0] holds, and the copies [cs] (session, grid
    object, contents) on top: new objects, each with a grid of its own. *)
Definition copies (w0 w : World) (b : bool)
    (cs : list (loc * loc * GameState.t)) : Prop :=
  tape w = tape w0
  ∧ (∀ l h, grids w0 !! l = Some h → grids w !! l = Some h)
  ∧ (∀ s p, sessions w0 !! s = Some p → sessions w !! s = Some p)
  ∧ Forall (λ c, sessions w !! c.1.1 = Some (mkSession c.1.2 b)
                 ∧ grids w !! c.1.2 = Some c.2
                 ∧ grids w0 !! c.1.2 = None) cs
  ∧ NoDup (cs.*1.*2).

(** What [checkIfGameOver] on session [self] (with grid [g]) may change
    between [w] and [w']: the flag of [self], and objects [w] does not have. *)
Definition checked (self : loc) (o : SessionObj) (g : GameState.t)
    (w w' : World) : Prop :=
  sessions w' !! self = Some (mkSession (gameState o) (game_over g))
  ∧ grids w' !! gameState o = Some g
  ∧ tape w' = tape w
  ∧ (∀ l h, grids w !! l = Some h → grids w' !! l = Some h)
  ∧ (∀ s p, s ≠ self → sessions w !! s = Some p → sessions w' !! s = Some p).

(** [fuel] lets each of the four moves on [g] run to its end. *)
Definition suffices (fuel : nat) (g : GameState.t) : Prop :=
  ∀ move, GameSession.moveAllItemsInDir_state fuel move g = Ok (settle move g).

(** A computation whose results do not change when it is given more fuel. *)
Definition mono {A} (m : nat → M A) : Prop :=
  ∀ fuel fuel' w r, (fuel ≤ fuel')%nat → m fuel w = Ok r → m fuel' w = Ok r.

(** The grid of the cascade example: row 0 is [2, 2, 2, empty]. *)
Definition row222 : GameState.t :=
  GameState.mk 4 [[Some 2; Some 2; Some 2; None];
                  [None; None; None; None];
                  [None; None; None; None];
                  [None; None; None; None]].

(** A store with one session, on the grid of the cascade example. *)
Definition world222 : World :=
  mkWorld {[0%nat := mkSession 0%nat false]} {[0%nat := row222]} [].

(** The driver loop of [main], one key press per turn of
    [while not gameSession.isGameOver]: the loop ends when the flag is set. *)
Fixpoint play (fuel : nat) (self : loc) (moves : list Move.t) : M unit :=
  match moves with
  | [] => mret ()
  | m :: moves' =>
      s ← read_session self;
      if isGameOver s then mret ()
      else GameSession.nextMove fuel self m ≫= λ _ : unit,
           play fuel self moves'
  end.

(** A game on a new 2x2 session: five times up, then down; the random
    source puts the tiles at (0,0), (1,0), (0,1), (0,1), (1,1), (1,0). *)
Definition short_game : res (loc * World) :=
  (self ← GameSession.init 2;
   play 3 self [Move.up; Move.up; Move.up; Move.up; Move.up; Move.down]
     ≫= λ _ : unit, mret self)
    (mkWorld ∅ ∅ [0; 0; 1; 0; 0; 1; 0; 1; 1; 1; 1; 0]).

Definition stuck_board : GameState.t :=
  GameState.mk 2 [[Some 4; Some 2]; [Some 2; Some 4]].

(** ** Vocabulary of the further properties *)

(** No tile can go further in the direction of the move: the neighbour of
    every tile in that direction, when there is one on the grid, is a tile
    of another value. *)
Definition blocked (move : Move.t) (g : GameState.t) : Prop :=
  ∀ c e a, inside g c → cell g c.1 c.2 = Some a →
           target move (GameState.size g) c.1 c.2 = Some e →
           ∃ b, cell g e.1 e.2 = Some b ∧ b ≠ a.

(** The line a move works along: the row for left and right, the column
    for up and down. *)
Definition line (move : Move.t) (x y : Z) : Z :=
  match move with
  | Move.up | Move.down => x
  | Move.left | Move.right => y
  end.

(** The sum of the values on line [k]. *)
Definition line_total (move : Move.t) (k : Z) (g : GameState.t) : Z :=
  wsum (λ x y v, if bool_decide (line move x y = k) then default 0 v else 0) g.

(** Every cell of the grid holds a tile. *)
Definition full (g : GameState.t) : Prop :=
  ∀ x y, inside g (x, y) → cell g x y ≠ None.

(** Every tile on the board satisfies [P]. *)
Definition all_tiles (P : Z → Prop) (g : GameState.t) : Prop :=
  ∀ x y a, cell g x y = Some a → P a.

Definition power_of_two (a : Z) : Prop := ∃ k : Z, 1 ≤ k ∧ a = 2 ^ k.

(** Some cell of the grid is empty; some cell holds a tile. *)
Definition has_empty (g : GameState.t) : Prop :=
  ∃ x y, inside g (x, y) ∧ cell g x y = None.

Definition has_tile (g : GameState.t) : Prop :=
  ∃ x y a, cell g x y = Some a.

(** The tape read as pairs of draws. *)
Definition draws (ps : list (Z * Z)) : list Z := ps ≫= λ p, [p.1; p.2].

(** A computation that, given less fuel, either runs out of it or does
    what it does with more. *)
Definition stable {A} (m : nat → M A) : Prop :=
  ∀ fuel fuel' w, (fuel ≤ fuel')%nat →
    m fuel w = OutOfFuel ∨ m fuel w = m fuel' w.

(** Where [short_game] ends: the session and the store. *)
Definition short_game_end : loc * World :=
  match short_game with
  | Ok r => r
  | _ => (0%nat, mkWorld ∅ ∅ [])
  end.

(** A store with one session on a grid without cells, and one with a
    session on the full board [stuck_board]. *)
Definition world0 : World :=
  mkWorld {[0%nat := mkSession 0%nat false]} {[0%nat := GameState.init 0]} [].

Definition world_stuck : World :=
  mkWorld {[0%nat := mkSession 0%nat false]} {[0%nat := stuck_board]}
          [1; 1; 0; 1].

(** [world222] with draws on the tape: (0,0) holds a tile, (3,0) is empty. *)
Definition world222_draws : World :=
  mkWorld {[0%nat := mkSession 0%nat false]} {[0%nat := row222]} [0; 0; 3; 0; 7].

(** The store after one [nextMove] on [world_stuck]. *)
Definition world_over : World :=
  match GameSession.nextMove 1 0%nat Move.up world_stuck with
  | Ok (_, w) => w
  | _ => world_stuck
  end.

(** ** [GameState.getTileColor]

    The dictionary has int keys and the string key ['super'].  [None] stands
    for an exception ([KeyError] of a dictionary access, [ValueError] of
    [int]). *)

Inductive key := KInt (n : Z) | KStr (s : string).

#[global] Instance key_eq_dec : EqDecision key.
Proof. solve_decision. Defined.

(** [d[k]]; [k in d] is [is_Some] of it. *)
Fixpoint dict_get (d : list (key * string)) (k : key) : option string :=
  match d with
  | [] => None
  | (k', v) :: d' => if decide (k' = k) then Some v else dict_get d' k
  end.

Definition tileColorDict : list (key * string) :=
  [(KInt 2, "eee4da"); (KInt 4, "ede0c8"); (KInt 8, "f2b179");
   (KInt 16, "f59563"); (KInt 32, "f59563"); (KInt 64, "f65e3b");
   (KInt 128, "edcf72"); (KInt 256, "edcc61"); (KInt 512, "edc850");
   (KInt 1024, "edc53f"); (KInt 2048, "edc22e"); (KStr "super", "3c3a32")].

(** The value of a hexadecimal digit, by its character code: 0-9, a-f,
    A-F. *)
Definition hex_digit (c : Ascii.ascii) : option Z :=
  let n := Z.of_N (Ascii.N_of_ascii c) in
  if bool_decide (48 ≤ n ≤ 57) then Some (n - 48)
  else if bool_decide (97 ≤ n ≤ 102) then Some (n - 87)
  else if bool_decide (65 ≤ n ≤ 70) then Some (n - 55)
  else None.

Fixpoint int16_digits (acc : Z) (s : string) : option Z :=
  match s with
  | EmptyString => Some acc
  | String c s' =>
      match hex_digit c with
      | Some d => int16_digits (16 * acc + d) s'
      | None => None
      end
  end.

(** [int(s, 16)] on a string of hexadecimal digits, which is all the
    table holds; the empty string is a [ValueError], and so is, here, every
    string with another character (Python also accepts a sign, a 0x prefix,
    underscores and surrounding blanks). *)
Definition int16 (s : string) : option Z :=
  match s with
  | EmptyString => None
  | _ => int16_digits 0 s
  end.

(** [s[i:j]] for [0 <= i <= j]. *)
Definition slice (i j : nat) (s : string) : string :=
  String.substring i (j - i) s.

Definition getTileColor (number : Z) : option (Z * Z * Z) :=
  hexString ← (if bool_decide (is_Some (dict_get tileColorDict (KInt number)))
               then dict_get tileColorDict (KInt number)
               else dict_get tileColorDict (KStr "super"));
  r ← int16 (slice 0 2 hexString);
  g ← int16 (slice 2 4 hexString);
  b ← int16 (slice 4 6 hexString);
  Some (r, g, b).

(** ** The grid: [getItem], [setItem], [__eq__] *)

Section grid.
Implicit Types (g : GameState.t) (x y : Z) (v : option Z).

Lemma in_range_true x n : in_range x n = true ↔ 0 ≤ x < n.
Proof. unfold in_range. by rewrite bool_decide_eq_true. Qed.

Lemma in_range_false x n : in_range x n = false ↔ ¬ (0 ≤ x < n).
Proof. unfold in_range. by rewrite bool_decide_eq_false. Qed.

Lemma in_range_both x y n :
  0 ≤ x < n → 0 ≤ y < n → in_range x n && in_range y n = true.
Proof. intros. apply andb_true_iff. by rewrite !in_range_true. Qed.

Lemma wf_row g y :
  wf g → 0 ≤ y < GameState.size g →
  ∃ row, GameState.data g !! Z.to_nat y = Some row
         ∧ length row = Z.to_nat (GameState.size g).
Proof.
  intros [Hlen Hrows] Hy.
  destruct (lookup_lt_is_Some_2 (GameState.data g) (Z.to_nat y)) as [row Hrow];
    [lia|].
  exists row. split; [done|].
  by eapply (Forall_lookup_1 _ _ _ _ Hrows Hrow).
Qed.

Lemma wf_lookup g x y :
  wf g → 0 ≤ x < GameState.size g → 0 ≤ y < GameState.size g →
  ∃ row, GameState.data g !! Z.to_nat y = Some row
         ∧ length row = Z.to_nat (GameState.size g)
         ∧ row !! Z.to_nat x = Some (cell g x y).
Proof.
  intros Hwf Hx Hy. destruct (wf_row g y Hwf Hy) as (row & Hrow & Hlen).
  exists row. split_and!; [done..|].
  unfold cell. rewrite in_range_both, Hrow by done.
  destruct (lookup_lt_is_Some_2 row (Z.to_nat x)) as [v Hv]; [lia|].
  by rewrite Hv.
Qed.

Lemma getItem_ok g x y :
  wf g → 0 ≤ x < GameState.size g → 0 ≤ y < GameState.size g →
  GameState.getItem g x y = Ok (cell g x y).
Proof.
  intros Hwf Hx Hy. destruct (wf_lookup g x y) as (row & Hrow & _ & Hv); [done..|].
  unfold GameState.getItem. by rewrite in_range_both, Hrow, Hv.
Qed.

Lemma getItem_assert g x y :
  ¬ (0 ≤ x < GameState.size g ∧ 0 ≤ y < GameState.size g) →
  GameState.getItem g x y = Raise AssertionError.
Proof.
  intros Hout. unfold GameState.getItem.
  destruct (in_range x _ && in_range y _) eqn:E; [|done].
  apply andb_true_iff in E. rewrite !in_range_true in E. tauto.
Qed.

Lemma setItem_ok g x y v :
  wf g → 0 ≤ x < GameState.size g → 0 ≤ y < GameState.size g →
  GameState.setItem g x y v = Ok (upd g x y v).
Proof.
  intros Hwf Hx Hy. destruct (wf_row g y Hwf Hy) as (row & Hrow & Hlen).
  unfold GameState.setItem, upd. rewrite in_range_both, Hrow by done.
  rewrite bool_decide_true by lia. done.
Qed.

Lemma setItem_assert g x y v :
  ¬ (0 ≤ x < GameState.size g ∧ 0 ≤ y < GameState.size g) →
  GameState.setItem g x y v = Raise AssertionError.
Proof.
  intros Hout. unfold GameState.setItem.
  destruct (in_range x _ && in_range y _) eqn:E; [|done].
  apply andb_true_iff in E. rewrite !in_range_true in E. tauto.
Qed.

Lemma size_upd g x y v : GameState.size (upd g x y v) = GameState.size g.
Proof. unfold upd. by destruct (_ !! _). Qed.

Lemma wf_upd g x y v : wf g → wf (upd g x y v).
Proof.
  intros [Hlen Hrows]. unfold upd, wf.
  destruct (GameState.data g !! Z.to_nat y) as [row|] eqn:Hrow; [|done].
  simpl. rewrite length_insert. split; [done|].
  apply Forall_insert; [done|]. rewrite length_insert.
  by eapply (Forall_lookup_1 _ _ _ _ Hrows Hrow).
Qed.

Lemma cell_outside g x y :
  ¬ (0 ≤ x < GameState.size g ∧ 0 ≤ y < GameState.size g) → cell g x y = None.
Proof.
  intros Hout. unfold cell.
  destruct (in_range x _ && in_range y _) eqn:E; [|done].
  apply andb_true_iff in E. rewrite !in_range_true in E. tauto.
Qed.

Lemma cell_upd_eq g x y v :
  wf g → 0 ≤ x < GameState.size g → 0 ≤ y < GameState.size g →
  cell (upd g x y v) x y = v.
Proof.
  intros Hwf Hx Hy. destruct (wf_row g y Hwf Hy) as (row & Hrow & Hlen).
  unfold cell, upd. rewrite Hrow. simpl. rewrite in_range_both by done.
  rewrite list_lookup_insert_eq by (apply lookup_lt_Some in Hrow; lia).
  rewrite list_lookup_insert_eq by lia. done.
Qed.

Lemma cell_upd_ne g x y v x' y' :
  0 ≤ x → 0 ≤ y → (x', y') ≠ (x, y) →
  cell (upd g x y v) x' y' = cell g x' y'.
Proof.
  intros Hx0 Hy0 Hne. unfold cell at 1. rewrite size_upd.
  destruct (in_range x' _ && in_range y' _) eqn:E;
    [|by rewrite cell_outside
        by (rewrite <-!in_range_true, <-andb_true_iff; congruence)].
  pose proof E as E'. apply andb_true_iff in E' as [Hx' Hy'].
  rewrite in_range_true in Hx', Hy'.
  unfold cell. rewrite E. unfold upd.
  destruct (GameState.data g !! Z.to_nat y) as [row|] eqn:Hrow; [|done].
  simpl. destruct (decide (y' = y)) as [->|Hy].
  - rewrite list_lookup_insert_eq by (apply lookup_lt_Some in Hrow; lia).
    rewrite Hrow. rewrite list_lookup_insert_ne; [done|].
    intros Heq. apply Hne. f_equal. lia.
  - rewrite list_lookup_insert_ne by lia. done.
Qed.

Lemma cell_upd g x y v x' y' :
  wf g → 0 ≤ x < GameState.size g → 0 ≤ y < GameState.size g →
  cell (upd g x y v) x' y'
  = if decide ((x', y') = (x, y)) then v else cell g x' y'.
Proof.
  intros. case_decide as Hc.
  - injection Hc as -> ->. by apply cell_upd_eq.
  - apply cell_upd_ne; [lia..|done].
Qed.

(** Two well-formed grids of one size with the same cells are equal. *)
Lemma wf_ext g1 g2 :
  wf g1 → wf g2 → GameState.size g1 = GameState.size g2 →
  (∀ x y, 0 ≤ x < GameState.size g1 → 0 ≤ y < GameState.size g1 →
          cell g1 x y = cell g2 x y) →
  g1 = g2.
Proof.
  intros Hwf1 Hwf2 Hsz Hcells.
  destruct g1 as [n d1], g2 as [n2 d2]. simpl in *. subst n2. f_equal.
  apply list_eq_same_length with (Z.to_nat n);
    [by destruct Hwf2 | by destruct Hwf1 |].
  intros j r1 r2 Hj H1 H2.
  assert (Hy : 0 ≤ Z.of_nat j < n) by lia.
  destruct (wf_row _ _ Hwf1 Hy) as (r1' & Hr1 & Hl1).
  destruct (wf_row _ _ Hwf2 Hy) as (r2' & Hr2 & Hl2).
  simpl in *. rewrite Nat2Z.id in Hr1, Hr2. simplify_eq.
  apply list_eq_same_length with (Z.to_nat n); [done..|].
  intros i a b Hi Ha Hb.
  assert (Hx : 0 ≤ Z.of_nat i < n) by lia.
  specialize (Hcells _ _ Hx Hy). unfold cell in Hcells. simpl in Hcells.
  rewrite in_range_both in Hcells by done.
  rewrite !Nat2Z.id, H1, H2, Ha, Hb in Hcells. done.
Qed.

End grid.

Section grid_eq.
Implicit Types (g : GameState.t) (x y : Z).

Lemma elem_of_range x n : x ∈ range n ↔ 0 ≤ x < n.
Proof. unfold range. rewrite elem_of_seqZ. lia. Qed.

Lemma eq_row_ok g1 g2 y xs :
  wf g1 → wf g2 → GameState.size g1 = GameState.size g2 →
  0 ≤ y < GameState.size g1 → Forall (λ x, 0 ≤ x < GameState.size g1) xs →
  GameState.eq_row g1 g2 y xs = Ok (same_row g1 g2 y xs).
Proof.
  intros Hwf1 Hwf2 Hsz Hy. induction 1 as [|x xs Hx _ IH]; [done|].
  simpl. rewrite !getItem_ok by (done || lia). simpl.
  destruct (decide (cell g1 x y = cell g2 x y)) as [Heq|Hne].
  - rewrite bool_decide_false by tauto. by rewrite (bool_decide_true _ Heq).
  - rewrite bool_decide_true by done. by rewrite (bool_decide_false _ Hne).
Qed.

Lemma eq_rows_ok g1 g2 ys :
  wf g1 → wf g2 → GameState.size g1 = GameState.size g2 →
  Forall (λ y, 0 ≤ y < GameState.size g1) ys →
  GameState.eq_rows g1 g2 ys
  = Ok (forallb (λ y, same_row g1 g2 y (range (GameState.size g1))) ys).
Proof.
  intros Hwf1 Hwf2 Hsz. induction 1 as [|y ys Hy _ IH]; [done|].
  simpl. rewrite eq_row_ok; [|done..|].
  - simpl. by destruct (same_row _ _ _ _).
  - apply Forall_forall. intros x. by rewrite elem_of_range.
Qed.

Lemma same_rows_true g1 g2 :
  wf g1 → wf g2 → GameState.size g1 = GameState.size g2 →
  forallb (λ y, same_row g1 g2 y (range (GameState.size g1)))
          (range (GameState.size g1)) = true
  ↔ g1 = g2.
Proof.
  intros Hwf1 Hwf2 Hsz. split.
  - intros Hall. apply wf_ext; [done..|]. intros x y Hx Hy.
    rewrite forallb_forall in Hall.
    specialize (Hall y). rewrite <-list_elem_of_In, elem_of_range in Hall.
    specialize (Hall Hy). unfold same_row in Hall.
    rewrite forallb_forall in Hall.
    specialize (Hall x). rewrite <-list_elem_of_In, elem_of_range in Hall.
    by apply bool_decide_eq_true in Hall.
  - intros <-. apply forallb_forall. intros y _.
    apply forallb_forall. intros x _. by apply bool_decide_eq_true.
Qed.

(** On well-formed grids [__eq__] raises nothing and decides equality. *)
Lemma eq_ok g1 g2 :
  wf g1 → wf g2 → GameState.eq g1 g2 = Ok (bool_decide (g1 = g2)).
Proof.
  intros Hwf1 Hwf2. unfold GameState.eq. case_bool_decide as Hsz.
  - rewrite bool_decide_false; [done|]. by intros ->.
  - rewrite eq_rows_ok; [|done..|].
    + f_equal. apply eq_true_iff_eq.
      rewrite same_rows_true, bool_decide_eq_true by done. done.
    + apply Forall_forall. intros y. by rewrite elem_of_range.
Qed.

Lemma size_init n : GameState.size (GameState.init n) = n.
Proof. done. Qed.

Lemma wf_init n : wf (GameState.init n).
Proof.
  unfold wf, GameState.init, range. simpl. rewrite length_fmap, length_seqZ.
  split; [done|]. apply Forall_fmap, Forall_forall. intros y _. simpl.
  by rewrite length_fmap, length_seqZ.
Qed.

Lemma cell_init n x y : cell (GameState.init n) x y = None.
Proof.
  unfold cell. simpl. destruct (in_range x n && in_range y n); [|done].
  rewrite list_lookup_fmap. destruct (range n !! Z.to_nat y); [|done].
  simpl. rewrite list_lookup_fmap. by destruct (range n !! Z.to_nat x).
Qed.

End grid_eq.

(** ** One pass of the scan *)

Section pass.
Implicit Types (g : GameState.t) (x y : Z) (move : Move.t).

Lemma shiftOneItemTo_ok s e g :
  wf g → inside g s → inside g e →
  GameSession.shiftOneItemTo s e g = Ok (shift s e g).
Proof.
  intros Hwf [Hs1 Hs2] [He1 He2]. unfold GameSession.shiftOneItemTo, shift.
  rewrite !getItem_ok by done. simpl.
  destruct (cell g e.1 e.2) as [b|] eqn:He; simpl.
  - destruct (decide (cell g s.1 s.2 = Some b)) as [Hs|Hs].
    + rewrite Hs. rewrite bool_decide_true by done. simpl.
      rewrite setItem_ok by done. simpl.
      rewrite setItem_ok by (rewrite ?size_upd; auto using wf_upd). done.
    + by rewrite bool_decide_false.
  - rewrite setItem_ok by done. simpl.
    rewrite setItem_ok by (rewrite ?size_upd; auto using wf_upd). done.
Qed.

Lemma size_shift s e g : GameState.size (shift s e g) = GameState.size g.
Proof.
  unfold shift. destruct (cell g e.1 e.2); [case_decide|];
    by rewrite ?size_upd.
Qed.

Lemma wf_shift s e g : wf g → wf (shift s e g).
Proof.
  intros. unfold shift. destruct (cell g e.1 e.2); [case_decide|];
    auto using wf_upd.
Qed.

Lemma target_inside move g x y e :
  inside g (x, y) → target move (GameState.size g) x y = Some e →
  inside g e ∧ e ≠ (x, y).
Proof.
  unfold inside. simpl. intros [Hx Hy] Ht.
  destruct move; simpl in Ht; case_bool_decide; simplify_eq; simpl;
    (split; [lia|intros [=]; lia]).
Qed.

Lemma visit_ok move g x y :
  wf g → inside g (x, y) →
  GameSession.visit move x y g = Ok (visit_fun move g (x, y)).
Proof.
  intros Hwf Hin. pose proof Hin as [Hx Hy]. simpl in Hx, Hy.
  unfold GameSession.visit, visit_fun. rewrite getItem_ok by done. simpl.
  destruct (cell g x y) as [a|] eqn:Hc; [|done]. simpl.
  destruct (target move (GameState.size g) x y) as [e|] eqn:Ht.
  - destruct (target_inside _ _ _ _ _ Hin Ht) as [He _].
    destruct move; simpl in Ht; case_bool_decide; simplify_eq; simpl;
      by rewrite ?(bool_decide_true (_ > _)), ?(bool_decide_true (_ < _))
           by done; simpl; rewrite shiftOneItemTo_ok.
  - destruct move; simpl in Ht; case_bool_decide; simplify_eq; simpl;
      by rewrite ?(bool_decide_false (_ > _)), ?(bool_decide_false (_ < _))
           by done.
Qed.

Lemma size_visit move g c :
  GameState.size (visit_fun move g c) = GameState.size g.
Proof.
  unfold visit_fun. destruct (cell _ _ _); [|done].
  destruct (target _ _ _ _); [|done]. apply size_shift.
Qed.

Lemma wf_visit move g c : wf g → wf (visit_fun move g c).
Proof.
  intros. unfold visit_fun. destruct (cell _ _ _); [|done].
  destruct (target _ _ _ _); [|done]. by apply wf_shift.
Qed.

Lemma size_foldl_visit move cs g :
  GameState.size (foldl (visit_fun move) g cs) = GameState.size g.
Proof.
  revert g. induction cs as [|c cs IH]; intros g; simpl; [done|].
  by rewrite IH, size_visit.
Qed.

Lemma wf_foldl_visit move cs g : wf g → wf (foldl (visit_fun move) g cs).
Proof.
  revert g. induction cs as [|c cs IH]; intros g Hwf; simpl; [done|].
  by apply IH, wf_visit.
Qed.

Lemma size_pass move g : GameState.size (pass_fun move g) = GameState.size g.
Proof. apply size_foldl_visit. Qed.

Lemma wf_pass move g : wf g → wf (pass_fun move g).
Proof. apply wf_foldl_visit. Qed.

Lemma elem_of_coords n x y : (x, y) ∈ coords n ↔ 0 ≤ x < n ∧ 0 ≤ y < n.
Proof.
  unfold coords. rewrite list_elem_of_bind. split.
  - intros (y' & Hin & Hy'). apply list_elem_of_bind in Hin as (x' & Hin & Hx').
    apply list_elem_of_singleton in Hin. simplify_eq.
    by rewrite !elem_of_range in *.
  - intros [Hx Hy]. exists y. split; [|by apply elem_of_range].
    apply list_elem_of_bind. exists x. split; [|by apply elem_of_range].
    by apply list_elem_of_singleton.
Qed.

Lemma NoDup_coords n : NoDup (coords n).
Proof.
  unfold coords, range. apply NoDup_bind.
  - intros y1 y2 c _ _ Hc1 Hc2.
    apply list_elem_of_bind in Hc1 as (x1 & Hc1 & _).
    apply list_elem_of_bind in Hc2 as (x2 & Hc2 & _).
    apply list_elem_of_singleton in Hc1, Hc2. by simplify_eq.
  - intros y _. apply NoDup_bind.
    + intros x1 x2 c _ _ Hc1 Hc2.
      apply list_elem_of_singleton in Hc1, Hc2. by simplify_eq.
    + intros x _. apply NoDup_singleton.
    + apply NoDup_seqZ.
  - apply NoDup_seqZ.
Qed.

(** The scan of one row, then of all rows, is the fold over [coords]. *)
Lemma row_ok move g y xs :
  wf g → 0 ≤ y < GameState.size g →
  Forall (λ x, 0 ≤ x < GameState.size g) xs →
  foldM (λ (x : Z) (g : GameState.t), GameSession.visit move x y g) xs g
  = Ok (foldl (visit_fun move) g ((λ x, (x, y)) <$> xs)).
Proof.
  intros Hwf Hy Hxs. revert g Hwf Hy Hxs.
  induction xs as [|x xs IH]; intros g Hwf Hy Hxs; [done|].
  apply Forall_cons in Hxs as [Hx Hxs]. simpl.
  rewrite visit_ok by done. simpl.
  apply IH; rewrite ?size_visit; auto using wf_visit.
Qed.

Lemma rows_ok move g ys :
  wf g → Forall (λ y, 0 ≤ y < GameState.size g) ys →
  foldM (λ (y : Z) (g : GameState.t),
           foldM (λ (x : Z) (g : GameState.t), GameSession.visit move x y g)
                 (range (GameState.size g)) g) ys g
  = Ok (foldl (visit_fun move) g
              (y ← ys; x ← range (GameState.size g); [(x, y)])).
Proof.
  intros Hwf Hys. revert g Hwf Hys.
  induction ys as [|y ys IH]; intros g Hwf Hys; [done|].
  apply Forall_cons in Hys as [Hy Hys]. simpl.
  rewrite row_ok; [|done..|].
  2:{ apply Forall_forall. intros x. by rewrite elem_of_range. }
  simpl. rewrite foldl_app.
  assert (Hb : (range (GameState.size g) ≫= λ x : Z, [(x, y)])
               = (λ x, (x, y)) <$> range (GameState.size g)).
  { generalize (range (GameState.size g)). intros l.
    induction l as [|a l IHl]; [done|]. simpl. by f_equal. }
  rewrite Hb.
  set (g1 := foldl _ g _).
  assert (Hsz : GameState.size g1 = GameState.size g)
    by apply size_foldl_visit.
  rewrite <-Hsz. apply IH.
  - by apply wf_foldl_visit.
  - by rewrite Hsz.
Qed.

(** On a well-formed grid a pass raises nothing. *)
Lemma pass_ok move g :
  wf g → GameSession.pass move g = Ok (pass_fun move g).
Proof.
  intros Hwf. unfold GameSession.pass, pass_fun, coords.
  apply rows_ok; [done|].
  apply Forall_forall. intros y. by rewrite elem_of_range.
Qed.

End pass.

(** ** Sums over the board and the effect of a shift *)

Section sums.
Implicit Types (g : GameState.t) (x y : Z) (move : Move.t)
  (w : Z → Z → option Z → Z).

Lemma sumZ_cons (a : Z) (l : list Z) : sumZ (a :: l) = a + sumZ l.
Proof. done. Qed.

Lemma sumZ_ext {A} (f f' : A → Z) (l : list A) :
  (∀ c, c ∈ l → f' c = f c) → sumZ (f' <$> l) = sumZ (f <$> l).
Proof.
  induction l as [|a l IH]; intros Hext; [done|].
  rewrite !fmap_cons, !sumZ_cons.
  rewrite (Hext a) by apply list_elem_of_here.
  rewrite IH; [done|]. intros c Hc. apply Hext. by apply list_elem_of_further.
Qed.

(** Changing a summand at one place of a duplicate-free list. *)
Lemma sumZ_update {A} (f f' : A → Z) (l : list A) (c : A) :
  NoDup l → c ∈ l → (∀ c', c' ∈ l → c' ≠ c → f' c' = f c') →
  sumZ (f' <$> l) = sumZ (f <$> l) - f c + f' c.
Proof.
  induction 1 as [|a l Ha Hnd IH]; intros Hc Hext; [by inv Hc|].
  rewrite !fmap_cons, !sumZ_cons.
  apply elem_of_cons in Hc as [->|Hc].
  - rewrite (sumZ_ext f f' l); [lia|].
    intros c' Hc'. apply Hext; [by apply list_elem_of_further|].
    by intros ->.
  - rewrite IH; [|done|].
    + rewrite (Hext a); [lia|apply list_elem_of_here|]. by intros ->.
    + intros c' Hc' Hne. apply Hext; [by apply list_elem_of_further|done].
Qed.

Lemma sumZ_nonneg {A} (f : A → Z) (l : list A) :
  (∀ c, c ∈ l → 0 ≤ f c) → 0 ≤ sumZ (f <$> l).
Proof.
  induction l as [|a l IH]; intros Hf; [done|].
  rewrite fmap_cons, sumZ_cons.
  pose proof (Hf a (list_elem_of_here _ _)).
  assert (0 ≤ sumZ (f <$> l)); [|lia].
  apply IH. intros c Hc. apply Hf. by apply list_elem_of_further.
Qed.

Lemma wsum_upd w g x y v :
  wf g → inside g (x, y) →
  wsum w (upd g x y v) = wsum w g - w x y (cell g x y) + w x y v.
Proof.
  intros Hwf [Hx Hy]. simpl in Hx, Hy. unfold wsum. rewrite size_upd.
  rewrite (sumZ_update (λ c, w c.1 c.2 (cell g c.1 c.2)) _ _ (x, y)).
  - simpl. by rewrite cell_upd_eq.
  - apply NoDup_coords.
  - by apply elem_of_coords.
  - intros [x' y'] _ Hne. simpl. rewrite cell_upd_ne; [done|lia..|done].
Qed.

Lemma wsum_nonneg w g :
  (∀ x y v, inside g (x, y) → 0 ≤ w x y v) → 0 ≤ wsum w g.
Proof.
  intros Hw. unfold wsum. apply sumZ_nonneg. intros [x y] Hc.
  apply elem_of_coords in Hc. by apply Hw.
Qed.

(** The three outcomes of [shiftOneItemTo] on a tile. *)
Lemma shift_free w s e g a :
  wf g → inside g s → inside g e → s ≠ e →
  cell g s.1 s.2 = Some a → cell g e.1 e.2 = None →
  wsum w (shift s e g)
  = wsum w g - w e.1 e.2 None + w e.1 e.2 (Some a)
    - w s.1 s.2 (Some a) + w s.1 s.2 None.
Proof.
  intros Hwf Hs He Hne Hcs Hce. destruct s as [sx sy], e as [ex ey].
  simpl in *. unfold shift. simpl. rewrite Hce.
  destruct Hs as [Hs1 Hs2], He as [He1 He2]. simpl in *.
  rewrite wsum_upd
    by (unfold inside; rewrite ?size_upd; auto using wf_upd).
  rewrite cell_upd_ne by (lia || done).
  rewrite wsum_upd by done. rewrite Hce, Hcs. done.
Qed.

Lemma shift_merge w s e g a :
  wf g → inside g s → inside g e → s ≠ e →
  cell g s.1 s.2 = Some a → cell g e.1 e.2 = Some a →
  wsum w (shift s e g)
  = wsum w g - w e.1 e.2 (Some a) + w e.1 e.2 (Some (a + a))
    - w s.1 s.2 (Some a) + w s.1 s.2 None.
Proof.
  intros Hwf Hs He Hne Hcs Hce. destruct s as [sx sy], e as [ex ey].
  simpl in *. unfold shift. simpl. rewrite Hce, decide_True by done.
  destruct Hs as [Hs1 Hs2], He as [He1 He2]. simpl in *.
  rewrite wsum_upd
    by (unfold inside; rewrite ?size_upd; auto using wf_upd).
  rewrite cell_upd_ne by (lia || done).
  rewrite wsum_upd by done. rewrite Hce, Hcs. done.
Qed.

Lemma shift_blocked s e g a b :
  cell g s.1 s.2 = Some a → cell g e.1 e.2 = Some b → a ≠ b →
  shift s e g = g.
Proof.
  intros Hcs Hce Hne. unfold shift. rewrite Hce, Hcs.
  rewrite decide_False; [done|]. by intros [=].
Qed.

End sums.

(** ** A pass keeps the cell_total and lowers the potential when it changes
    the grid *)

Section effects.
Implicit Types (g : GameState.t) (x y : Z) (move : Move.t).

Lemma dist_target move g x y e :
  inside g (x, y) → target move (GameState.size g) x y = Some e →
  dist move (GameState.size g) e.1 e.2 = dist move (GameState.size g) x y - 1
  ∧ 0 ≤ dist move (GameState.size g) e.1 e.2.
Proof.
  unfold inside. simpl. intros [Hx Hy] Ht.
  destruct move; simpl in *; case_bool_decide; simplify_eq; simpl; lia.
Qed.

Lemma potential_shift_free move s e g a :
  wf g → inside g s → target move (GameState.size g) s.1 s.2 = Some e →
  cell g s.1 s.2 = Some a → cell g e.1 e.2 = None →
  cell_total (shift s e g) = cell_total g
  ∧ potential move (shift s e g) = potential move g - 1.
Proof.
  intros Hwf Hs Ht Hcs Hce. destruct s as [sx sy]. simpl in *.
  destruct (target_inside _ _ _ _ _ Hs Ht) as [He Hne].
  destruct (dist_target _ _ _ _ _ Hs Ht) as [Hd _].
  unfold cell_total, potential, tiles, displacement. rewrite size_shift.
  rewrite !(shift_free _ (sx, sy) e g a) by done. simpl. lia.
Qed.

Lemma potential_shift_merge move s e g a :
  wf g → inside g s → target move (GameState.size g) s.1 s.2 = Some e →
  cell g s.1 s.2 = Some a → cell g e.1 e.2 = Some a →
  cell_total (shift s e g) = cell_total g
  ∧ tiles (shift s e g) = tiles g - 1
  ∧ potential move (shift s e g) < potential move g.
Proof.
  intros Hwf Hs Ht Hcs Hce. destruct s as [sx sy]. simpl in *.
  destruct (target_inside _ _ _ _ _ Hs Ht) as [He Hne].
  destruct (dist_target _ _ _ _ _ Hs Ht) as [Hd Hd0].
  unfold cell_total, potential, tiles, displacement. rewrite size_shift.
  rewrite !(shift_merge _ (sx, sy) e g a) by done. simpl. lia.
Qed.

(** Visiting one cell keeps the cell_total; it either leaves the grid as it
    is or lowers the potential. *)
Lemma visit_effect move g c :
  wf g → inside g c →
  cell_total (visit_fun move g c) = cell_total g
  ∧ (visit_fun move g c = g
     ∨ potential move (visit_fun move g c) < potential move g).
Proof.
  intros Hwf Hc. unfold visit_fun.
  destruct (cell g c.1 c.2) as [a|] eqn:Hcs; [|by auto].
  destruct (target move (GameState.size g) c.1 c.2) as [e|] eqn:Ht; [|by auto].
  destruct (cell g e.1 e.2) as [b|] eqn:Hce.
  - destruct (decide (a = b)) as [<-|Hne].
    + destruct (potential_shift_merge move c e g a) as (? & _ & ?); auto.
    + rewrite (shift_blocked c e g a b) by done. auto.
  - destruct (potential_shift_free move c e g a) as (? & ?); [done..|].
    split; [done|]. right. lia.
Qed.

(** A tile with a free neighbour in the direction of the move moves. *)
Lemma visit_free move g c e a :
  wf g → inside g c → cell g c.1 c.2 = Some a →
  target move (GameState.size g) c.1 c.2 = Some e → cell g e.1 e.2 = None →
  visit_fun move g c ≠ g.
Proof.
  intros Hwf Hc Hcs Ht Hce Heq.
  destruct (potential_shift_free move c e g a) as (_ & Hp); [done..|].
  unfold visit_fun in Heq. rewrite Hcs, Ht in Heq. rewrite Heq in Hp. lia.
Qed.

Lemma foldl_visit_effect move cs g :
  wf g → Forall (inside g) cs →
  cell_total (foldl (visit_fun move) g cs) = cell_total g
  ∧ ((foldl (visit_fun move) g cs = g ∧ ∀ c, c ∈ cs → visit_fun move g c = g)
     ∨ potential move (foldl (visit_fun move) g cs) < potential move g).
Proof.
  revert g. induction cs as [|c cs IH]; intros g Hwf Hcs; simpl.
  { split; [done|]. left. split; [done|]. intros c Hc. inv Hc. }
  apply Forall_cons in Hcs as [Hc Hcs].
  destruct (visit_effect move g c Hwf Hc) as [Htot Hstep].
  destruct (IH (visit_fun move g c)) as [Htot' Hrest].
  { by apply wf_visit. }
  { eapply Forall_impl; [done|]. unfold inside. by rewrite size_visit. }
  split; [congruence|].
  destruct Hstep as [Heq|Hlt].
  - rewrite Heq in *. destruct Hrest as [[Hfix Hall]|Hlt]; [left|by right].
    split; [done|]. intros c' Hc'.
    apply elem_of_cons in Hc' as [->|Hc']; auto.
  - right. destruct Hrest as [[-> _]|Hlt']; lia.
Qed.

Lemma Forall_inside_coords g : Forall (inside g) (coords (GameState.size g)).
Proof. apply Forall_forall. intros [x y]. by rewrite elem_of_coords. Qed.

Lemma pass_effect move g :
  wf g →
  cell_total (pass_fun move g) = cell_total g
  ∧ ((pass_fun move g = g ∧ ∀ c, inside g c → visit_fun move g c = g)
     ∨ potential move (pass_fun move g) < potential move g).
Proof.
  intros Hwf.
  destruct (foldl_visit_effect move (coords (GameState.size g)) g Hwf)
    as [Htot Hcases]; [apply Forall_inside_coords|].
  split; [done|]. destruct Hcases as [[Hfix Hall]|Hlt]; [left|by right].
  split; [done|]. intros [x y] Hc. apply Hall. by apply elem_of_coords.
Qed.

Lemma tiles_nonneg g : 0 ≤ tiles g.
Proof. apply wsum_nonneg. intros x y [v|] _; lia. Qed.

Lemma displacement_nonneg move g : 0 ≤ displacement move g.
Proof.
  apply wsum_nonneg. intros x y [v|] [Hx Hy]; [|lia]. simpl in *.
  destruct move; simpl; lia.
Qed.

Lemma potential_nonneg move g : 0 ≤ potential move g.
Proof.
  pose proof (tiles_nonneg g). pose proof (displacement_nonneg move g).
  unfold potential. lia.
Qed.

End effects.

(** ** The fixed-point loop of [moveAllItemsInDir] *)

Section fixed_point.
Implicit Types (g last : GameState.t) (move : Move.t) (fuel : nat).

Lemma loop_unfold fuel move g last :
  wf g → wf last →
  GameSession.loop fuel move g last
  = if bool_decide (g = last) then Ok g
    else match fuel with
         | O => OutOfFuel
         | S fuel' => GameSession.loop fuel' move (pass_fun move g) g
         end.
Proof.
  intros Hwf Hlast. destruct fuel; simpl; rewrite eq_ok by done; simpl;
    case_bool_decide; try done.
  by rewrite pass_ok.
Qed.

(** More fuel does not change a result. *)
Lemma loop_mono fuel fuel' move g last g' :
  (fuel ≤ fuel')%nat →
  GameSession.loop fuel move g last = Ok g' →
  GameSession.loop fuel' move g last = Ok g'.
Proof.
  revert fuel' g last. induction fuel as [|fuel IH]; intros fuel' g last Hle.
  - simpl. destruct fuel'; simpl; destruct (GameState.eq g last) as [[]| |];
      simpl; congruence.
  - destruct fuel' as [|fuel']; [lia|]. simpl.
    destruct (GameState.eq g last) as [[]| |]; simpl; try congruence.
    destruct (GameSession.pass move g) as [g1| |]; simpl; try congruence.
    apply IH. lia.
Qed.

(** The loop returns: the number of runs of its body is bounded by the
    potential of the grid it starts from. *)
Lemma loop_spec move (k : nat) :
  ∀ g last, wf g → wf last → potential move g ≤ Z.of_nat k →
  ∃ (n : nat) g',
    (n ≤ S k)%nat
    ∧ (∀ fuel, (n ≤ fuel)%nat → GameSession.loop fuel move g last = Ok g')
    ∧ wf g' ∧ GameState.size g' = GameState.size g
    ∧ cell_total g' = cell_total g
    ∧ potential move g' ≤ potential move g
    ∧ ((g = last ∧ g' = g ∧ n = O)
       ∨ (g ≠ last ∧ pass_fun move g' = g'
          ∧ (g' = g ↔ pass_fun move g = g))).
Proof.
  induction k as [k IH] using lt_wf_ind. intros g last Hwf Hlast Hk.
  destruct (decide (g = last)) as [Heq|Hne].
  { exists O, g. split_and!; try done; [lia| |by left].
    intros fuel _. rewrite loop_unfold by done. by rewrite bool_decide_true. }
  destruct (pass_effect move g Hwf) as [Htot [[Hfix _]|Hlt]].
  - exists 1%nat, g. split_and!; try done; [lia| |by right].
    intros [|fuel] Hfuel; [lia|].
    rewrite loop_unfold, bool_decide_false by done. rewrite Hfix.
    rewrite loop_unfold by done. by rewrite bool_decide_true.
  - pose proof (potential_nonneg move (pass_fun move g)) as Hp0.
    destruct (IH (Z.to_nat (potential move (pass_fun move g))))
      with (g := pass_fun move g) (last := g)
      as (n & g' & Hn & Hrun & Hwf' & Hsz & Htot' & Hpot & Hcases);
      [lia|by apply wf_pass|done|lia|].
    exists (S n), g'. split_and!.
    + lia.
    + intros [|fuel] Hfuel; [lia|].
      rewrite loop_unfold, bool_decide_false by done. apply Hrun. lia.
    + done.
    + by rewrite Hsz, size_pass.
    + congruence.
    + lia.
    + right. split; [done|].
      destruct Hcases as [(Heq & _)|(_ & Hfix' & _)].
      { rewrite Heq in Hlt. lia. }
      split; [done|]. split; intros Heq; [|rewrite Heq in Hlt; lia].
      subst g'. lia.
Qed.

Lemma potential_init move n : potential move (GameState.init n) = 0.
Proof.
  unfold potential, tiles, displacement, wsum.
  assert (H0 : ∀ (w : Z → Z → Z) l,
    sumZ ((λ c : Z * Z,
             match cell (GameState.init n) c.1 c.2 with
             | Some _ => w c.1 c.2 | None => 0 end) <$> l) = 0).
  { intros w l. induction l as [|c l IHl]; [done|].
    rewrite fmap_cons, sumZ_cons, IHl, cell_init. done. }
  rewrite (H0 (λ _ _, 1)), (H0 (λ x y, dist move _ x y)). done.
Qed.

(** [moveAllItemsInDir] on a well-formed grid. *)
Lemma move_spec move g :
  wf g →
  ∃ (n : nat) g',
    (Z.of_nat n ≤ 1 + potential move g)
    ∧ (∀ fuel, (n ≤ fuel)%nat →
               GameSession.moveAllItemsInDir_state fuel move g = Ok g')
    ∧ wf g' ∧ GameState.size g' = GameState.size g
    ∧ cell_total g' = cell_total g
    ∧ potential move g' ≤ potential move g
    ∧ ((g = GameState.init (GameState.size g) ∧ g' = g ∧ n = O)
       ∨ (g ≠ GameState.init (GameState.size g) ∧ pass_fun move g' = g'
          ∧ (g' = g ↔ pass_fun move g = g))).
Proof.
  intros Hwf. pose proof (potential_nonneg move g).
  destruct (loop_spec move (Z.to_nat (potential move g)) g
              (GameState.init (GameState.size g)))
    as (n & g' & Hn & Hrest); [done|apply wf_init|lia|].
  exists n, g'. split; [lia|done].
Qed.

(** Any result of [moveAllItemsInDir] is the result of [move_spec]. *)
Lemma move_det move g fuel1 fuel2 g1 g2 :
  GameSession.moveAllItemsInDir_state fuel1 move g = Ok g1 →
  GameSession.moveAllItemsInDir_state fuel2 move g = Ok g2 →
  g1 = g2.
Proof.
  unfold GameSession.moveAllItemsInDir_state. intros H1 H2.
  apply (loop_mono _ (fuel1 `max` fuel2)%nat) in H1; [|lia].
  apply (loop_mono _ (fuel1 `max` fuel2)%nat) in H2; [|lia].
  congruence.
Qed.

End fixed_point.


(** ** The two ways of summing the board agree *)

Section total.
Implicit Types (g : GameState.t).

Lemma sumZ_app l1 l2 : sumZ (l1 ++ l2) = sumZ l1 + sumZ l2.
Proof.
  induction l1 as [|a l1 IH]; [done|].
  rewrite <-app_comm_cons, !sumZ_cons. lia.
Qed.

Lemma sumZ_bind {A B} (f : B → Z) (k : A → list B) (l : list A) :
  sumZ (f <$> (l ≫= k)) = sumZ ((λ a, sumZ (f <$> k a)) <$> l).
Proof.
  induction l as [|a l IH]; [done|].
  rewrite bind_cons, fmap_app, sumZ_app, fmap_cons, sumZ_cons. by rewrite IH.
Qed.

Lemma data_cells g :
  wf g →
  GameState.data g
  = (λ y, (λ x, cell g x y) <$> range (GameState.size g))
      <$> range (GameState.size g).
Proof.
  intros Hwf. pose proof Hwf as [Hlen Hrows].
  apply list_eq_same_length with (Z.to_nat (GameState.size g));
    [by rewrite length_fmap; apply length_seqZ|done|].
  intros j r1 r2 Hj H1 H2.
  assert (Hy : 0 ≤ Z.of_nat j < GameState.size g) by lia.
  rewrite list_lookup_fmap in H2. unfold range in H2 at 2.
  rewrite lookup_seqZ_lt in H2 by lia. simpl in H2. simplify_eq.
  apply list_eq_same_length with (Z.to_nat (GameState.size g));
    [by rewrite length_fmap; apply length_seqZ
    |by eapply (Forall_lookup_1 _ _ _ _ Hrows H1)|].
  intros i a b Hi Ha Hb.
  assert (Hx : 0 ≤ Z.of_nat i < GameState.size g) by lia.
  rewrite list_lookup_fmap in Hb. unfold range in Hb.
  rewrite lookup_seqZ_lt in Hb by lia. simpl in Hb. simplify_eq.
  unfold cell. rewrite in_range_both by done.
  by rewrite !Z.add_0_l, !Nat2Z.id, H1, Ha.
Qed.

Lemma total_cells g : wf g → total g = cell_total g.
Proof.
  intros Hwf. unfold total, cell_total, wsum, coords.
  rewrite sumZ_bind. rewrite (data_cells g Hwf) at 1.
  rewrite <-list_fmap_compose. f_equal. apply list_fmap_ext.
  intros _ y _. simpl. rewrite sumZ_bind.
  rewrite <-list_fmap_compose. f_equal. apply list_fmap_ext.
  intros _ x _. simpl. lia.
Qed.

End total.

(** ** The list comprehensions and the settled grid *)

Section comprehension.
Implicit Types (g : GameState.t) (x y : Z) (move : Move.t).

Lemma comprehension_inner {A} (f : option Z → A) g x ys (acc : list A) :
  wf g → 0 ≤ x < GameState.size g →
  Forall (λ y, 0 ≤ y < GameState.size g) ys →
  foldM (λ (y : Z) (acc : list A),
           v ← GameState.getItem g x y; Ok (acc ++ [f v])) ys acc
  = Ok (acc ++ ((λ y, f (cell g x y)) <$> ys)).
Proof.
  intros Hwf Hx Hys. revert acc.
  induction Hys as [|y ys Hy _ IH]; intros acc; simpl.
  - by rewrite app_nil_r.
  - rewrite getItem_ok by done. simpl. rewrite IH. by rewrite <-app_assoc.
Qed.

Lemma comprehension_outer {A} (f : option Z → A) g xs (acc : list A) :
  wf g → Forall (λ x, 0 ≤ x < GameState.size g) xs →
  foldM (λ (x : Z) (acc : list A),
           foldM (λ (y : Z) (acc : list A),
                    v ← GameState.getItem g x y; Ok (acc ++ [f v]))
                 (range (GameState.size g)) acc) xs acc
  = Ok (acc ++ (xs ≫= λ x, (λ y, f (cell g x y)) <$> range (GameState.size g))).
Proof.
  intros Hwf Hxs. revert acc.
  induction Hxs as [|x xs Hx _ IH]; intros acc; simpl.
  - by rewrite app_nil_r.
  - rewrite comprehension_inner; [|done..|].
    + simpl. rewrite IH. by rewrite <-app_assoc.
    + apply Forall_forall. intros y. by rewrite elem_of_range.
Qed.

Lemma all_cells_true (p : option Z → bool) g :
  all_cells p g = true ↔ ∀ x y, inside g (x, y) → p (cell g x y) = true.
Proof.
  unfold all_cells. rewrite forallb_forall. split.
  - intros Hall x y Hin. apply (Hall (x, y)).
    by apply list_elem_of_In, elem_of_coords.
  - intros Hall [x y] Hin. apply Hall.
    by apply list_elem_of_In, elem_of_coords in Hin.
Qed.

(** The list comprehension followed by [all] (the scan is column by
    column, which does not matter for [all]). *)
Lemma all_comprehension (p : option Z → bool) g :
  wf g →
  ∃ l, GameState.comprehension p g = Ok l ∧ forallb id l = all_cells p g.
Proof.
  intros Hwf. eexists. split.
  - unfold GameState.comprehension. apply comprehension_outer; [done|].
    apply Forall_forall. intros x. by rewrite elem_of_range.
  - simpl. apply eq_true_iff_eq. rewrite all_cells_true, forallb_forall. split.
    + intros Hall x y [Hx Hy]. simpl in *. apply (Hall (p (cell g x y))).
      apply list_elem_of_In, list_elem_of_bind. exists x.
      split; [|by apply elem_of_range].
      apply list_elem_of_fmap. exists y. split; [done|by apply elem_of_range].
    + intros Hall b Hb.
      apply list_elem_of_In, list_elem_of_bind in Hb as (x & Hb & Hx).
      apply list_elem_of_fmap in Hb as (y & -> & Hy).
      apply elem_of_range in Hx, Hy. by apply Hall.
Qed.

Lemma enough_ge move g : (S (Z.to_nat (potential move g)) ≤ enough g)%nat.
Proof. unfold enough. destruct move; lia. Qed.

(** [settle] is what [moveAllItemsInDir] returns. *)
Lemma settle_spec move g :
  wf g →
  (∀ fuel, (S (Z.to_nat (potential move g)) ≤ fuel)%nat →
     GameSession.moveAllItemsInDir_state fuel move g = Ok (settle move g))
  ∧ wf (settle move g)
  ∧ GameState.size (settle move g) = GameState.size g
  ∧ cell_total (settle move g) = cell_total g
  ∧ potential move (settle move g) ≤ potential move g
  ∧ (settle move g = g
     ↔ g = GameState.init (GameState.size g) ∨ pass_fun move g = g).
Proof.
  intros Hwf.
  destruct (move_spec move g Hwf)
    as (n & g' & Hn & Hrun & Hwf' & Hsz & Htot & Hpot & Hcases).
  assert (Hs : settle move g = g').
  { unfold settle. rewrite Hrun; [done|lia]. }
  rewrite Hs. split_and!; try done.
  - intros fuel Hfuel. apply Hrun. lia.
  - destruct Hcases as [(Hinit & -> & _)|(Hne & _ & Hiff)]; [by split; auto|].
    rewrite Hiff. split; [by auto|]. by intros [?|?].
Qed.

Lemma settle_unique move g fuel g' :
  wf g → GameSession.moveAllItemsInDir_state fuel move g = Ok g' →
  g' = settle move g.
Proof.
  intros Hwf Hrun. destruct (settle_spec move g Hwf) as (Hs & _).
  eapply move_det; [done|]. by apply Hs.
Qed.

End comprehension.

(** ** The store: copies and frames *)

Section store.
Implicit Types (w : World) (self s l : loc) (g h : GameState.t)
  (o : SessionObj) (move : Move.t).

Lemma bind_Ok {A B} (m : M A) (f : A → M B) w a w1 :
  m w = Ok (a, w1) → (m ≫= f) w = f a w1.
Proof. unfold mbind, M_bind. by intros ->. Qed.

Lemma bind_inv {A B} (m : M A) (f : A → M B) w r :
  (m ≫= f) w = Ok r → ∃ a w1, m w = Ok (a, w1) ∧ f a w1 = Ok r.
Proof.
  unfold mbind, M_bind. destruct (m w) as [[a w1]| |]; [|done..].
  intros Hf. by exists a, w1.
Qed.

Lemma read_session_ok w self o :
  sessions w !! self = Some o → read_session self w = Ok (o, w).
Proof. unfold read_session. by intros ->. Qed.

Lemma read_grid_ok w l g :
  grids w !! l = Some g → read_grid l w = Ok (g, w).
Proof. unfold read_grid. by intros ->. Qed.

Lemma state_of_ok w self o g :
  sessions w !! self = Some o → grids w !! gameState o = Some g →
  state_of self w = Ok (g, w).
Proof.
  intros Hs Hg. unfold state_of.
  rewrite (bind_Ok _ _ _ _ _ (read_session_ok _ _ _ Hs)).
  by apply read_grid_ok.
Qed.

Lemma copies_refl w b : copies w w b [].
Proof. split_and!; try done. constructor. Qed.

Lemma copies_lookup w0 w b cs c :
  copies w0 w b cs → c ∈ cs →
  sessions w !! c.1.1 = Some (mkSession c.1.2 b) ∧ grids w !! c.1.2 = Some c.2.
Proof.
  intros (_ & _ & _ & Hcs & _) Hc.
  rewrite Forall_forall in Hcs. by destruct (Hcs c Hc) as (? & ? & _).
Qed.

(** One more deep copy of a session of the old store. *)
Lemma deepcopy_step w0 w b cs self o g :
  copies w0 w b cs →
  sessions w0 !! self = Some o → isGameOver o = b →
  grids w0 !! gameState o = Some g →
  ∃ s l w', deepcopy self w = Ok (s, w') ∧ copies w0 w' b (cs ++ [(s, l, g)]).
Proof.
  intros (Htape & Hgrids & Hsess & Hcs & Hnd) Hself Hb Hg.
  assert (Hl : grids w !! fresh (dom (grids w)) = None)
    by apply not_elem_of_dom, is_fresh.
  assert (Hs : sessions w !! fresh (dom (sessions w)) = None)
    by apply not_elem_of_dom, is_fresh.
  exists (fresh (dom (sessions w))), (fresh (dom (grids w))). eexists. split.
  { unfold deepcopy.
    rewrite (bind_Ok _ _ _ _ _ (read_session_ok _ _ _ (Hsess _ _ Hself))).
    rewrite (bind_Ok _ _ _ _ _ (read_grid_ok _ _ _ (Hgrids _ _ Hg))).
    unfold mbind, M_bind, alloc_grid, alloc_session. simpl. rewrite Hb.
    reflexivity. }
  revert Hl Hs.
  generalize (fresh (dom (grids w))), (fresh (dom (sessions w))).
  intros l s Hl Hs. split_and!; simpl.
  - done.
  - intros l0 h Hl0. rewrite lookup_insert_ne; [by apply Hgrids|].
    intros Heq. apply Hgrids in Hl0. rewrite <-Heq, Hl in Hl0. done.
  - intros s0 p Hs0. rewrite lookup_insert_ne; [by apply Hsess|].
    intros Heq. apply Hsess in Hs0. rewrite <-Heq, Hs in Hs0. done.
  - apply Forall_app. split.
    + eapply Forall_impl; [exact Hcs|]. intros [[s1 l1] h1]. simpl.
      intros (H1 & H2 & H3). split_and!; [| |done].
      * rewrite lookup_insert_ne; [done|]. intros Heq.
        rewrite <-Heq, Hs in H1. done.
      * rewrite lookup_insert_ne; [done|]. intros Heq.
        rewrite <-Heq, Hl in H2. done.
    + apply Forall_singleton. simpl. rewrite !lookup_insert_eq.
      split_and!; [done..|].
      destruct (grids w0 !! l) as [h|] eqn:Hh; [|done].
      apply Hgrids in Hh. congruence.
  - rewrite !fmap_app. simpl. apply NoDup_app. split_and!; [done| |].
    + intros l0 Hl0 Hin. apply list_elem_of_singleton in Hin as ->.
      apply list_elem_of_fmap in Hl0 as ([s1 l1] & -> & Hl0).
      apply list_elem_of_fmap in Hl0 as ([[s2 l2] h2] & [= <- <-] & Hl0).
      rewrite Forall_forall in Hcs. destruct (Hcs _ Hl0) as (_ & H2 & _).
      simpl in *. congruence.
    + apply NoDup_singleton.
Qed.

(** [moveAllItemsInDir] on one of the copies changes that copy only. *)
Lemma move_step w0 w b cs1 cs2 s l h move fuel :
  copies w0 w b (cs1 ++ (s, l, h) :: cs2) →
  GameSession.moveAllItemsInDir_state fuel move h = Ok (settle move h) →
  ∃ w', GameSession.moveAllItemsInDir fuel s move w = Ok ((), w')
        ∧ copies w0 w' b (cs1 ++ (s, l, settle move h) :: cs2).
Proof.
  intros Hcopies Hrun.
  destruct (copies_lookup _ _ _ _ (s, l, h) Hcopies) as [Hs Hl];
    [apply elem_of_app; right; apply list_elem_of_here|]. simpl in Hs, Hl.
  destruct Hcopies as (Htape & Hgrids & Hsess & Hcs & Hnd).
  eexists. split.
  { unfold GameSession.moveAllItemsInDir, on_state.
    rewrite (bind_Ok _ _ _ _ _ (read_session_ok _ _ _ Hs)). simpl.
    rewrite (bind_Ok _ _ _ _ _ (read_grid_ok _ _ _ Hl)).
    unfold mbind, M_bind, lift. rewrite Hrun. reflexivity. }
  apply Forall_app in Hcs as [Hcs1 Hcs2].
  apply Forall_cons in Hcs2 as [(_ & _ & Hnew) Hcs2]. simpl in Hnew.
  rewrite !fmap_app, !fmap_cons in Hnd. simpl in Hnd.
  apply NoDup_app in Hnd as (Hnd1 & Hdisj & Hnd2).
  apply NoDup_cons in Hnd2 as [Hl2 Hnd2].
  assert (Hother : ∀ cs, l ∉ cs.*1.*2 →
    Forall (λ c, sessions w !! c.1.1 = Some (mkSession c.1.2 b)
                 ∧ grids w !! c.1.2 = Some c.2 ∧ grids w0 !! c.1.2 = None) cs →
    Forall (λ c, sessions w !! c.1.1 = Some (mkSession c.1.2 b)
                 ∧ <[l := settle move h]> (grids w) !! c.1.2 = Some c.2
                 ∧ grids w0 !! c.1.2 = None) cs).
  { intros cs Hnot Hall. apply Forall_forall. intros [[s1 l1] h1] Hin.
    rewrite Forall_forall in Hall. destruct (Hall _ Hin) as (H1 & H2 & H3).
    simpl in *. split_and!; [done| |done].
    rewrite lookup_insert_ne; [done|]. intros <-. apply Hnot.
    apply list_elem_of_fmap. exists (s1, l). split; [done|].
    apply list_elem_of_fmap. by exists (s1, l, h1). }
  split_and!; simpl.
  - done.
  - intros l0 h0 Hl0. rewrite lookup_insert_ne; [by apply Hgrids|].
    intros <-. congruence.
  - done.
  - apply Forall_app. split.
    + apply Hother; [|done]. intros Hin. apply (Hdisj l Hin).
      apply list_elem_of_here.
    + apply Forall_cons. split; [|by apply Hother].
      simpl. by rewrite lookup_insert_eq.
  - rewrite !fmap_app, !fmap_cons. simpl. apply NoDup_app.
    split_and!; [done..|]. by apply NoDup_cons.
Qed.

End store.

Section check.
Implicit Types (w : World) (self s l : loc) (g h : GameState.t)
  (o : SessionObj) (move : Move.t).

Lemma set_isGameOver_ok w self o b :
  sessions w !! self = Some o →
  set_isGameOver self b w
  = Ok ((), mkWorld (<[self := mkSession (gameState o) b]> (sessions w))
                    (grids w) (tape w)).
Proof. unfold set_isGameOver. by intros ->. Qed.

Lemma mapM_cons {A B} (f : A → M B) (a : A) (xs : list A) :
  mapM f (a :: xs) = (y ← f a; k ← mapM f xs; mret (y :: k)).
Proof. done. Qed.

Lemma lift_ok {A} (r : res A) (a : A) w : r = Ok a → lift r w = Ok (a, w).
Proof. by intros ->. Qed.

Lemma mapM_Ok_nil {A B} (f : A → M B) w : mapM f [] w = Ok ([], w).
Proof. done. Qed.

Lemma mapM_Ok_cons {A B} (f : A → M B) a (xs : list A) w b w1 bs w2 :
  f a w = Ok (b, w1) → mapM f xs w1 = Ok (bs, w2) →
  mapM f (a :: xs) w = Ok (b :: bs, w2).
Proof.
  intros H1 H2. rewrite mapM_cons.
  by rewrite (bind_Ok _ _ _ _ _ H1), (bind_Ok _ _ _ _ _ H2).
Qed.

Lemma forM_Ok_cons {A} (f : A → M unit) a (xs : list A) w w1 r :
  f a w = Ok ((), w1) → forM_ f xs w1 = r → forM_ f (a :: xs) w = r.
Proof. intros H1 H2. simpl. by rewrite (bind_Ok _ _ _ _ _ H1). Qed.

Lemma compare_ok w0 w b cs self o g c :
  copies w0 w b cs → sessions w0 !! self = Some o →
  grids w0 !! gameState o = Some g → c ∈ cs → wf g → wf c.2 →
  (a ← state_of self; b ← state_of c.1.1; lift (GameState.eq a b)) w
  = Ok (bool_decide (g = c.2), w).
Proof.
  intros Hcopies Hs Hg Hc Hwf Hwfc.
  destruct (copies_lookup _ _ _ _ _ Hcopies Hc) as [Hcs Hcl].
  destruct Hcopies as (_ & Hgrids & Hsess & _).
  rewrite (bind_Ok _ _ _ _ _ (state_of_ok _ _ _ _ (Hsess _ _ Hs) (Hgrids _ _ Hg))).
  rewrite (bind_Ok _ _ _ _ _ (state_of_ok _ _ _ _ Hcs Hcl)).
  apply lift_ok. by apply eq_ok.
Qed.

Lemma enough_suffices fuel g : wf g → (enough g ≤ fuel)%nat → suffices fuel g.
Proof.
  intros Hwf Hfuel move. destruct (settle_spec move g Hwf) as (Hrun & _).
  apply Hrun. pose proof (enough_ge move g). lia.
Qed.

Lemma checkIfGameOver_spec fuel self w o g :
  sessions w !! self = Some o → grids w !! gameState o = Some g → wf g →
  suffices fuel g →
  ∃ w', GameSession.checkIfGameOver fuel self w = Ok ((), w')
        ∧ checked self o g w w'.
Proof.
  intros Hs Hg Hwf Hfuel.
  set (w1 := mkWorld (<[self := mkSession (gameState o) true]> (sessions w))
                     (grids w) (tape w)).
  assert (Hs1 : sessions w1 !! self = Some (mkSession (gameState o) true))
    by apply lookup_insert_eq.
  assert (Hg1 : grids w1 !! gameState (mkSession (gameState o) true) = Some g)
    by done.
  destruct (all_comprehension (λ v, bool_decide (v = None)) g Hwf)
    as (cells & Hcells & Hall).
  destruct (deepcopy_step w1 w1 true [] self _ g (copies_refl _ _) Hs1 eq_refl Hg1)
    as (s1 & l1 & wa & Ha & Hca).
  destruct (deepcopy_step w1 wa true _ self _ g Hca Hs1 eq_refl Hg1)
    as (s2 & l2 & wb & Hb & Hcb).
  destruct (deepcopy_step w1 wb true _ self _ g Hcb Hs1 eq_refl Hg1)
    as (s3 & l3 & wc & Hc & Hcc).
  destruct (deepcopy_step w1 wc true _ self _ g Hcc Hs1 eq_refl Hg1)
    as (s4 & l4 & wd & Hd & Hcd).
  simpl in Hcd.
  destruct (move_step w1 wd true [] [_; _; _] s1 l1 g Move.up fuel Hcd)
    as (we & He & Hce); [done|].
  destruct (move_step w1 we true [_] [_; _] s2 l2 g Move.down fuel Hce)
    as (wf' & Hf & Hcf); [done|].
  destruct (move_step w1 wf' true [_; _] [_] s3 l3 g Move.left fuel Hcf)
    as (wg & Hg' & Hcg); [done|].
  destruct (move_step w1 wg true [_; _; _] [] s4 l4 g Move.right fuel Hcg)
    as (wh & Hh & Hch); [done|].
  simpl in Hch.
  unfold GameSession.checkIfGameOver.
  rewrite (bind_Ok _ _ _ _ _ (set_isGameOver_ok _ _ _ true Hs)). fold w1.
  rewrite (bind_Ok _ _ _ _ _ (state_of_ok _ _ _ _ Hs1 Hg1)).
  rewrite (bind_Ok _ _ _ _ _ (lift_ok _ _ _ Hcells)).
  assert (Hmap : mapM (λ _ : Z, deepcopy self)
                   (range (Z.of_nat (length GameSession.movLs))) w1
                 = Ok ([s1; s2; s3; s4], wd)).
  { change (range (Z.of_nat (length GameSession.movLs))) with [0; 1; 2; 3].
    repeat (eapply mapM_Ok_cons; [eassumption|]). apply mapM_Ok_nil. }
  rewrite (bind_Ok _ _ _ _ _ Hmap).
  assert (Hfor : forM_ (λ '(x, m), GameSession.moveAllItemsInDir fuel x m)
                   (zip [s1; s2; s3; s4] GameSession.movLs) wd
                 = Ok ((), wh)).
  { simpl zip.
    repeat (eapply forM_Ok_cons; [eassumption|]). done. }
  rewrite (bind_Ok _ _ _ _ _ Hfor).
  destruct (settle_spec Move.up g Hwf) as (_ & Hwu & _).
  destruct (settle_spec Move.down g Hwf) as (_ & Hwd & _).
  destruct (settle_spec Move.left g Hwf) as (_ & Hwl & _).
  destruct (settle_spec Move.right g Hwf) as (_ & Hwr & _).
  assert (Hsames :
    mapM (λ x : loc, a ← state_of self; b ← state_of x;
                     lift (GameState.eq a b)) [s1; s2; s3; s4] wh
    = Ok ([bool_decide (g = settle Move.up g);
           bool_decide (g = settle Move.down g);
           bool_decide (g = settle Move.left g);
           bool_decide (g = settle Move.right g)], wh)).
  { eapply mapM_Ok_cons;
      [apply (compare_ok w1 wh true _ self _ g (s1, l1, _) Hch Hs1 Hg1);
         [set_solver|done..]|].
    eapply mapM_Ok_cons;
      [apply (compare_ok w1 wh true _ self _ g (s2, l2, _) Hch Hs1 Hg1);
         [set_solver|done..]|].
    eapply mapM_Ok_cons;
      [apply (compare_ok w1 wh true _ self _ g (s3, l3, _) Hch Hs1 Hg1);
         [set_solver|done..]|].
    eapply mapM_Ok_cons;
      [apply (compare_ok w1 wh true _ self _ g (s4, l4, _) Hch Hs1 Hg1);
         [set_solver|done..]|].
    apply mapM_Ok_nil. }
  rewrite Hall.
  assert (Hcond :
    (if all_cells (λ v : option Z, bool_decide (v = None)) g then mret true
     else sames ← mapM (λ x : loc, a ← state_of self; b ← state_of x;
                                   lift (GameState.eq a b)) [s1; s2; s3; s4];
          mret (negb (forallb id sames))) wh
    = Ok (negb (game_over g), wh)).
  { unfold game_over. destruct (all_cells _ g); [done|].
    by rewrite (bind_Ok _ _ _ _ _ Hsames). }
  rewrite (bind_Ok _ _ _ _ _ Hcond).
  destruct Hch as (Htape & Hgrids & Hsess & _).
  pose proof (Hsess _ _ Hs1) as Hsh. pose proof (Hgrids _ _ Hg1) as Hgh.
  unfold checked.
  destruct (game_over g); simpl.
  - exists wh. split; [done|]. split_and!; [done..| |].
    + intros l h Hl. by apply Hgrids.
    + intros s p Hne Hp. apply Hsess. simpl. by rewrite lookup_insert_ne.
  - eexists. split; [by apply set_isGameOver_ok|]. simpl.
    split_and!; simpl; [apply lookup_insert_eq|done..| |].
    + intros l h Hl. by apply Hgrids.
    + intros s p Hne Hp. rewrite lookup_insert_ne by done. apply Hsess.
      simpl. by rewrite lookup_insert_ne.
Qed.

End check.

(** ** More fuel does not change what the methods return *)

Section monotone.
Implicit Types (w : World) (self : loc) (move : Move.t).

Lemma mono_moveAllItemsInDir self move :
  mono (λ fuel, GameSession.moveAllItemsInDir fuel self move).
Proof.
  intros fuel fuel' w r Hle. unfold GameSession.moveAllItemsInDir, on_state.
  intros H.
  apply bind_inv in H as (o & w1 & H1 & H). rewrite (bind_Ok _ _ _ _ _ H1).
  apply bind_inv in H as (g & w2 & H2 & H). rewrite (bind_Ok _ _ _ _ _ H2).
  apply bind_inv in H as (g' & w3 & H3 & H).
  rewrite (bind_Ok _ _ _ g' w3); [done|].
  unfold lift in *.
  destruct (GameSession.moveAllItemsInDir_state fuel move g) as [g1| |] eqn:E;
    [|done..].
  unfold GameSession.moveAllItemsInDir_state in *.
  by rewrite (loop_mono _ _ _ _ _ _ Hle E).
Qed.

Lemma mono_forM_ {A} (f : nat → A → M unit) (xs : list A) :
  (∀ a, mono (λ fuel, f fuel a)) → mono (λ fuel, forM_ (f fuel) xs).
Proof.
  intros Hf fuel fuel' w r Hle. revert w.
  induction xs as [|a xs IH]; intros w; simpl; [done|]. intros H.
  apply bind_inv in H as ([] & w1 & H1 & H).
  rewrite (bind_Ok _ _ _ _ _ (Hf a _ _ _ _ Hle H1)). by apply IH.
Qed.

Lemma mono_checkIfGameOver self :
  mono (λ fuel, GameSession.checkIfGameOver fuel self).
Proof.
  intros fuel fuel' w r Hle. unfold GameSession.checkIfGameOver. intros H.
  apply bind_inv in H as (? & ? & H1 & H). rewrite (bind_Ok _ _ _ _ _ H1).
  apply bind_inv in H as (? & ? & H2 & H). rewrite (bind_Ok _ _ _ _ _ H2).
  apply bind_inv in H as (? & ? & H3 & H). rewrite (bind_Ok _ _ _ _ _ H3).
  apply bind_inv in H as (xs & ? & H4 & H). rewrite (bind_Ok _ _ _ _ _ H4).
  apply bind_inv in H as ([] & wd & H5 & H).
  rewrite (bind_Ok _ _ _ () wd); [done|].
  revert H5.
  apply (mono_forM_ (λ fuel '(x, m), GameSession.moveAllItemsInDir fuel x m));
    [|done].
  intros [s m]. apply mono_moveAllItemsInDir.
Qed.

Lemma mono_nextMove self move :
  mono (λ fuel, GameSession.nextMove fuel self move).
Proof.
  intros fuel fuel' w r Hle. unfold GameSession.nextMove. intros H.
  apply bind_inv in H as ([] & ? & H1 & H).
  rewrite (bind_Ok _ _ _ _ _ (mono_moveAllItemsInDir _ _ _ _ _ _ Hle H1)).
  apply bind_inv in H as ([] & ? & H2 & H).
  rewrite (bind_Ok _ _ _ _ _ (mono_checkIfGameOver _ _ _ _ _ Hle H2)).
  done.
Qed.

End monotone.

(** ** Spawning and [nextMove] *)

Section spawn.
Implicit Types (w : World) (self : loc) (move : Move.t) (g : GameState.t)
  (o : SessionObj) (tp : list Z).

(** The sampler only ever fills one empty cell. *)
Lemma sample_spec fuel val g tp g' tp' :
  wf g → GameSession.sample fuel val g tp = Ok (g', tp') →
  ∃ x y, inside g (x, y) ∧ cell g x y = None ∧ g' = upd g x y (Some val).
Proof.
  intros Hwf. revert tp. induction fuel as [|fuel IH]; intros tp; [done|].
  simpl. unfold randint. case_bool_decide as Hsz; [done|].
  destruct tp as [|r1 [|r2 tp]]; [done..|]. simpl.
  assert (Hmod : ∀ r, 0 ≤ 0 + r `mod` (GameState.size g - 1 - 0 + 1)
                       < GameState.size g).
  { intros r.
    pose proof (Z.mod_pos_bound r (GameState.size g - 1 - 0 + 1)). lia. }
  rewrite getItem_ok by auto. simpl.
  case_bool_decide as Hc.
  - rewrite setItem_ok by auto. simpl. intros [= <- <-].
    eexists _, _. split_and!; [|done..]. split; simpl; auto.
  - apply IH.
Qed.

(** A draw that hits an empty cell ends the loop. *)
Lemma sample_draw fuel val g r1 r2 tp :
  wf g → 0 < GameState.size g →
  cell g (r1 `mod` GameState.size g) (r2 `mod` GameState.size g) = None →
  GameSession.sample (S fuel) val g (r1 :: r2 :: tp)
  = Ok (upd g (r1 `mod` GameState.size g) (r2 `mod` GameState.size g)
            (Some val), tp).
Proof.
  intros Hwf Hsz Hc. simpl. unfold randint.
  rewrite bool_decide_false by lia. simpl.
  replace (GameState.size g - 1 - 0 + 1) with (GameState.size g) by lia.
  pose proof (Z.mod_pos_bound r1 (GameState.size g) Hsz).
  pose proof (Z.mod_pos_bound r2 (GameState.size g) Hsz).
  rewrite getItem_ok by done. simpl. rewrite bool_decide_true by done.
  by rewrite setItem_ok.
Qed.

Lemma sample_hit fuel val g x y tp :
  wf g → inside g (x, y) → cell g x y = None →
  GameSession.sample (S fuel) val g (x :: y :: tp)
  = Ok (upd g x y (Some val), tp).
Proof.
  intros Hwf [Hx Hy] Hc. simpl in Hx, Hy.
  rewrite sample_draw; rewrite ?Z.mod_small by lia; [done..|lia|done].
Qed.

Lemma addNumToRandomPoint_ok w self o g val g' tp' :
  sessions w !! self = Some o → grids w !! gameState o = Some g →
  GameSession.addNumToRandomPoint_state val g (tape w) = Ok (g', tp') →
  GameSession.addNumToRandomPoint self val w
  = Ok ((), mkWorld (sessions w) (<[gameState o := g']> (grids w)) tp').
Proof.
  intros Hs Hg Hrun. unfold GameSession.addNumToRandomPoint.
  rewrite (bind_Ok _ _ _ _ _ (read_session_ok _ _ _ Hs)).
  rewrite (bind_Ok _ _ _ _ _ (read_grid_ok _ _ _ Hg)).
  unfold GameSession.sample_into. by rewrite Hrun.
Qed.

Lemma addNumToRandomPoint_inv w self o g val w' :
  sessions w !! self = Some o → grids w !! gameState o = Some g →
  GameSession.addNumToRandomPoint self val w = Ok ((), w') →
  ∃ g' tp',
    GameSession.addNumToRandomPoint_state val g (tape w) = Ok (g', tp')
    ∧ w' = mkWorld (sessions w) (<[gameState o := g']> (grids w)) tp'.
Proof.
  intros Hs Hg. unfold GameSession.addNumToRandomPoint.
  rewrite (bind_Ok _ _ _ _ _ (read_session_ok _ _ _ Hs)).
  rewrite (bind_Ok _ _ _ _ _ (read_grid_ok _ _ _ Hg)).
  unfold GameSession.sample_into.
  destruct (GameSession.addNumToRandomPoint_state val g (tape w))
    as [[g' tp']| |]; [|done..].
  intros [= <-]. by exists g', tp'.
Qed.

(** [nextMove] up to the spawn step: the move is resolved, the flag is set
    from the settled grid, and the grid is still the settled one. *)
Lemma nextMove_prefix fuel self move w o g :
  sessions w !! self = Some o → grids w !! gameState o = Some g → wf g →
  GameSession.moveAllItemsInDir_state fuel move g = Ok (settle move g) →
  suffices fuel (settle move g) →
  ∃ w2,
    sessions w2 !! self
    = Some (mkSession (gameState o) (game_over (settle move g)))
    ∧ grids w2 !! gameState o = Some (settle move g)
    ∧ tape w2 = tape w
    ∧ GameSession.nextMove fuel self move w
      = (if negb (all_cells (λ v, bool_decide (v ≠ None)) (settle move g))
         then GameSession.addNumToRandomPoint self 2 else mret ()) w2.
Proof.
  intros Hs Hg Hwf Hrun Hfuel.
  destruct (settle_spec move g Hwf) as (_ & Hwf1 & _).
  set (w1 := mkWorld (sessions w)
                     (<[gameState o := settle move g]> (grids w)) (tape w)).
  assert (Hmove : GameSession.moveAllItemsInDir fuel self move w = Ok ((), w1)).
  { unfold GameSession.moveAllItemsInDir, on_state.
    rewrite (bind_Ok _ _ _ _ _ (read_session_ok _ _ _ Hs)).
    rewrite (bind_Ok _ _ _ _ _ (read_grid_ok _ _ _ Hg)).
    by rewrite (bind_Ok _ _ _ _ _ (lift_ok _ _ _ Hrun)). }
  assert (Hg1 : grids w1 !! gameState o = Some (settle move g))
    by apply lookup_insert_eq.
  destruct (checkIfGameOver_spec fuel self w1 o _ Hs Hg1 Hwf1 Hfuel)
    as (w2 & Hcheck & Hs2 & Hg2 & Htape & _).
  destruct (all_comprehension (λ v, bool_decide (v ≠ None)) _ Hwf1)
    as (cells & Hcells & Hall).
  exists w2. split_and!; [done..|].
  unfold GameSession.nextMove.
  rewrite (bind_Ok _ _ _ _ _ Hmove), (bind_Ok _ _ _ _ _ Hcheck).
  rewrite (bind_Ok _ _ _ _ _ (state_of_ok _ _ _ _ Hs2 Hg2)).
  rewrite (bind_Ok _ _ _ _ _ (lift_ok _ _ _ Hcells)).
  by rewrite Hall.
Qed.

End spawn.

(** ** When the flag is set *)

Section flag.
Implicit Types (g : GameState.t) (x y : Z) (move : Move.t).

(** Walking from a place where [f] holds to one where it does not, there
    is a step at which it stops holding. *)
Lemma transition_up (f : Z → bool) (a b : Z) :
  a ≤ b → f a = true → f b = false →
  ∃ i, a ≤ i < b ∧ f i = true ∧ f (i + 1) = false.
Proof.
  intros Hab. remember (Z.to_nat (b - a)) as n eqn:Hn.
  revert a Hab Hn. induction n as [|n IH]; intros a Hab Hn Ha Hb.
  - assert (a = b) as -> by lia. congruence.
  - destruct (f (a + 1)) eqn:Hnext.
    + destruct (IH (a + 1)) as (i & Hi & Hfi); [lia..|done|done|].
      exists i. split; [lia|done].
    + exists a. split; [lia|done].
Qed.

Lemma transition_down (f : Z → bool) (a b : Z) :
  b ≤ a → f a = true → f b = false →
  ∃ i, b < i ≤ a ∧ f i = true ∧ f (i - 1) = false.
Proof.
  intros Hba Ha Hb.
  destruct (transition_up (λ i, f (- i)) (- a) (- b)) as (i & Hi & Hfi & Hfi');
    [lia|by rewrite Z.opp_involutive..|].
  exists (- i). split; [lia|]. split; [done|].
  by replace (- i - 1) with (- (i + 1)) by lia.
Qed.

(** A board with a tile and an empty cell has a tile next to an empty
    cell. *)
Lemma free_neighbour g x0 y0 x1 y1 :
  inside g (x0, y0) → cell g x0 y0 = None →
  inside g (x1, y1) → cell g x1 y1 ≠ None →
  ∃ move c e a,
    inside g c ∧ cell g c.1 c.2 = Some a
    ∧ target move (GameState.size g) c.1 c.2 = Some e
    ∧ cell g e.1 e.2 = None.
Proof.
  intros [Hx0 Hy0] He [Hx1 Hy1] Ht. simpl in *.
  assert (Hsome : ∀ x y, bool_decide (cell g x y ≠ None) = true →
                         ∃ a, cell g x y = Some a).
  { intros x y Hb. apply bool_decide_eq_true in Hb.
    destruct (cell g x y) as [a|]; [by exists a|done]. }
  assert (Hnone : ∀ x y, bool_decide (cell g x y ≠ None) = false →
                         cell g x y = None).
  { intros x y Hb. apply bool_decide_eq_false in Hb.
    destruct (cell g x y) as [a|]; [|done]. by destruct Hb. }
  destruct (cell g x0 y1) as [b|] eqn:Hmid.
  - (* the column x0, between the rows y1 and y0 *)
    set (f := λ y, bool_decide (cell g x0 y ≠ None)).
    assert (Hf1 : f y1 = true) by (unfold f; rewrite Hmid; by apply bool_decide_eq_true).
    assert (Hf0 : f y0 = false) by (unfold f; rewrite He; by apply bool_decide_eq_false; auto).
    destruct (Z.le_ge_cases y1 y0) as [Hle|Hge].
    + destruct (transition_up f y1 y0 Hle Hf1 Hf0) as (i & Hi & Hfi & Hfi').
      apply Hsome in Hfi as [a Ha]. apply Hnone in Hfi'.
      exists Move.down, (x0, i), (x0, i + 1), a. simpl.
      split_and!; [split; simpl; lia|done| |done].
      rewrite bool_decide_true by lia. done.
    + destruct (transition_down f y1 y0 Hge Hf1 Hf0) as (i & Hi & Hfi & Hfi').
      apply Hsome in Hfi as [a Ha]. apply Hnone in Hfi'.
      exists Move.up, (x0, i), (x0, i - 1), a. simpl.
      split_and!; [split; simpl; lia|done| |done].
      rewrite bool_decide_true by lia. done.
  - (* the row y1, between the columns x1 and x0 *)
    set (f := λ x, bool_decide (cell g x y1 ≠ None)).
    assert (Hf1 : f x1 = true) by (unfold f; by apply bool_decide_eq_true).
    assert (Hf0 : f x0 = false) by (unfold f; rewrite Hmid; by apply bool_decide_eq_false; auto).
    destruct (Z.le_ge_cases x1 x0) as [Hle|Hge].
    + destruct (transition_up f x1 x0 Hle Hf1 Hf0) as (i & Hi & Hfi & Hfi').
      apply Hsome in Hfi as [a Ha]. apply Hnone in Hfi'.
      exists Move.right, (i, y1), (i + 1, y1), a. simpl.
      split_and!; [split; simpl; lia|done| |done].
      rewrite bool_decide_true by lia. done.
    + destruct (transition_down f x1 x0 Hge Hf1 Hf0) as (i & Hi & Hfi & Hfi').
      apply Hsome in Hfi as [a Ha]. apply Hnone in Hfi'.
      exists Move.left, (i, y1), (i - 1, y1), a. simpl.
      split_and!; [split; simpl; lia|done| |done].
      rewrite bool_decide_true by lia. done.
Qed.

(** A tile with a free neighbour in the direction of a move: that move
    changes the grid. *)
Lemma settle_changes move g c e a :
  wf g → inside g c → cell g c.1 c.2 = Some a →
  target move (GameState.size g) c.1 c.2 = Some e → cell g e.1 e.2 = None →
  settle move g ≠ g.
Proof.
  intros Hwf Hc Hcs Ht Hce Heq.
  destruct (settle_spec move g Hwf) as (_ & _ & _ & _ & _ & Hiff).
  apply Hiff in Heq as [Hinit|Hfix].
  - rewrite Hinit, cell_init in Hcs. done.
  - destruct (pass_effect move g Hwf) as [_ [[_ Hall]|Hlt]].
    + apply (visit_free move g c e a); auto.
    + rewrite Hfix in Hlt. lia.
Qed.

Lemma forallb_movLs (p : Move.t → bool) :
  forallb p GameSession.movLs = true ↔ ∀ move, p move = true.
Proof.
  simpl. rewrite !andb_true_iff. split.
  - intros (? & ? & ? & ? & _) []; done.
  - intros Hall. by rewrite !Hall.
Qed.

Lemma all_cells_false (p : option Z → bool) g :
  all_cells p g = false → ∃ x y, inside g (x, y) ∧ p (cell g x y) = false.
Proof.
  unfold all_cells. intros Hall.
  assert (Hex : ∃ c, c ∈ coords (GameState.size g) ∧ p (cell g c.1 c.2) = false).
  { induction (coords (GameState.size g)) as [|c cs IH]; [done|].
    simpl in Hall. apply andb_false_iff in Hall as [Hc|Hcs].
    - exists c. split; [apply list_elem_of_here|done].
    - destruct (IH Hcs) as (c' & Hin & Hc').
      exists c'. split; [by apply list_elem_of_further|done]. }
  destruct Hex as ([x y] & Hin & Hc). exists x, y.
  split; [by apply elem_of_coords in Hin|done].
Qed.

(** With an empty cell on the board the flag is not set. *)
Lemma game_over_empty_cell g x y :
  wf g → inside g (x, y) → cell g x y = None → game_over g = false.
Proof.
  intros Hwf Hin He. unfold game_over.
  destruct (all_cells _ g) eqn:Hall; [done|]. cbn [negb andb].
  apply not_true_is_false. intros Hstuck.
  rewrite forallb_movLs in Hstuck.
  apply all_cells_false in Hall as (x1 & y1 & Hin1 & Ht).
  apply bool_decide_eq_false in Ht.
  destruct (free_neighbour g x y x1 y1 Hin He Hin1 Ht)
    as (move & c & e & a & Hc & Hcs & Htg & Hce).
  specialize (Hstuck move). apply bool_decide_eq_true in Hstuck.
  by apply (settle_changes move g c e a).
Qed.

(** On a grid with cells the flag is set exactly when the board is full
    and no move changes it. *)
Lemma game_over_true g :
  wf g → 0 < GameState.size g →
  game_over g = true
  ↔ (∀ x y, inside g (x, y) → cell g x y ≠ None)
    ∧ (∀ move, settle move g = g).
Proof.
  intros Hwf Hsz. split.
  - intros Hover. split.
    + intros x y Hin He.
      by rewrite (game_over_empty_cell g x y) in Hover.
    + unfold game_over in Hover. apply andb_true_iff in Hover as [_ Hstuck].
      rewrite forallb_movLs in Hstuck. intros move.
      specialize (Hstuck move). by apply bool_decide_eq_true in Hstuck.
  - intros [Hfull Hstuck]. unfold game_over. apply andb_true_iff. split.
    + apply negb_true_iff, not_true_iff_false. rewrite all_cells_true.
      intros Hall. specialize (Hall 0 0). simpl in Hall.
      assert (Hin : inside g (0, 0)) by (split; simpl; lia).
      apply bool_decide_eq_true in Hall; [|done]. by apply (Hfull 0 0).
    + apply forallb_movLs. intros move. apply bool_decide_eq_true.
      by rewrite Hstuck.
Qed.

End flag.

(** ** Results at any fuel *)

Section any_fuel.
Implicit Types (w : World) (self : loc) (move : Move.t) (g : GameState.t)
  (o : SessionObj).

Lemma checkIfGameOver_any fuel self w o g w' :
  sessions w !! self = Some o → grids w !! gameState o = Some g → wf g →
  GameSession.checkIfGameOver fuel self w = Ok ((), w') →
  checked self o g w w'.
Proof.
  intros Hs Hg Hwf Hrun.
  apply (mono_checkIfGameOver self fuel (fuel `max` enough g)%nat) in Hrun;
    [|lia].
  destruct (checkIfGameOver_spec (fuel `max` enough g)%nat self w o g)
    as (w'' & Hrun' & Hchecked); [done..|apply enough_suffices; [done|lia]|].
  congruence.
Qed.

(** Fuel for [nextMove]: for the move itself and for the four trial moves
    on the settled grid. *)
Lemma nextMove_fuel move g :
  wf g →
  ∃ n : nat, ∀ fuel, (n ≤ fuel)%nat →
    GameSession.moveAllItemsInDir_state fuel move g = Ok (settle move g)
    ∧ suffices fuel (settle move g).
Proof.
  intros Hwf. destruct (settle_spec move g Hwf) as (Hrun & Hwf1 & _).
  exists (S (Z.to_nat (potential move g)) `max` enough (settle move g))%nat.
  intros fuel Hfuel. split; [apply Hrun; lia|].
  apply enough_suffices; [done|lia].
Qed.

Lemma nextMove_any fuel self move w o g w' :
  sessions w !! self = Some o → grids w !! gameState o = Some g → wf g →
  GameSession.nextMove fuel self move w = Ok ((), w') →
  ∃ w2,
    sessions w2 !! self
    = Some (mkSession (gameState o) (game_over (settle move g)))
    ∧ grids w2 !! gameState o = Some (settle move g)
    ∧ tape w2 = tape w
    ∧ (if negb (all_cells (λ v, bool_decide (v ≠ None)) (settle move g))
       then GameSession.addNumToRandomPoint self 2 else mret ()) w2
      = Ok ((), w').
Proof.
  intros Hs Hg Hwf Hrun. destruct (nextMove_fuel move g Hwf) as (n & Hn).
  apply (mono_nextMove self move fuel (fuel `max` n)%nat) in Hrun; [|lia].
  destruct (Hn (fuel `max` n)%nat) as [Hmove Hsuff]; [lia|].
  destruct (nextMove_prefix _ self move w o g Hs Hg Hwf Hmove Hsuff)
    as (w2 & Hs2 & Hg2 & Htape & Heq).
  exists w2. split_and!; [done..|]. by rewrite <-Heq.
Qed.

(** The flag [nextMove] leaves behind describes the grid before the spawn. *)
Lemma nextMove_flag fuel self move w o g w' :
  sessions w !! self = Some o → grids w !! gameState o = Some g → wf g →
  GameSession.nextMove fuel self move w = Ok ((), w') →
  the_flag w' self = Some (game_over (settle move g)).
Proof.
  intros Hs Hg Hwf Hnext.
  destruct (nextMove_any fuel self move w o g w' Hs Hg Hwf Hnext)
    as (w2 & Hs2 & Hg2 & _ & Hspawn).
  destruct (negb _); simpl in Hspawn.
  - apply (addNumToRandomPoint_inv _ _ _ _ _ _ Hs2 Hg2) in Hspawn
      as (g2 & tp' & _ & ->).
    unfold the_flag. simpl. by rewrite Hs2.
  - injection Hspawn as <-. unfold the_flag. by rewrite Hs2.
Qed.

(** So whenever [nextMove] spawns a tile it returns with the flag false,
    whatever board the spawn produces. *)
Lemma nextMove_flag_after_spawn fuel self move w o g w' x y :
  sessions w !! self = Some o → grids w !! gameState o = Some g → wf g →
  inside (settle move g) (x, y) → cell (settle move g) x y = None →
  GameSession.nextMove fuel self move w = Ok ((), w') →
  the_flag w' self = Some false.
Proof.
  intros Hs Hg Hwf Hin He Hnext.
  rewrite (nextMove_flag fuel self move w o g w') by done.
  destruct (settle_spec move g Hwf) as (_ & Hwf1 & _).
  by rewrite (game_over_empty_cell _ x y).
Qed.

(** On the empty grid the loop of [moveAllItemsInDir] does not run. *)
Lemma move_init fuel move n :
  GameSession.moveAllItemsInDir_state fuel move (GameState.init n)
  = Ok (GameState.init n).
Proof.
  unfold GameSession.moveAllItemsInDir_state.
  rewrite loop_unfold by auto using wf_init.
  by rewrite size_init, bool_decide_true.
Qed.

Lemma settle_init move n : settle move (GameState.init n) = GameState.init n.
Proof. unfold settle. by rewrite move_init. Qed.

Lemma suffices_init fuel n : suffices fuel (GameState.init n).
Proof. intros move. by rewrite move_init, settle_init. Qed.

End any_fuel.

(** ** Invariants of the scan and of the loop *)

Section invariants.
Implicit Types (g last : GameState.t) (move : Move.t) (c s e : Z * Z).

Lemma foldl_inv (I : GameState.t → Prop) move :
  (∀ g c, wf g → inside g c → I g → I (visit_fun move g c)) →
  ∀ cs g, wf g → Forall (inside g) cs → I g → I (foldl (visit_fun move) g cs).
Proof.
  intros Hvisit cs. induction cs as [|c cs IH]; intros g Hwf Hcs Hg; [done|].
  apply Forall_cons in Hcs as [Hc Hcs]. simpl. apply IH.
  - by apply wf_visit.
  - eapply Forall_impl; [done|]. unfold inside. by rewrite size_visit.
  - by apply Hvisit.
Qed.

Lemma pass_inv (I : GameState.t → Prop) move g :
  (∀ g c, wf g → inside g c → I g → I (visit_fun move g c)) →
  wf g → I g → I (pass_fun move g).
Proof.
  intros Hvisit Hwf Hg. unfold pass_fun.
  apply foldl_inv; [done..|apply Forall_inside_coords|done].
Qed.

Lemma loop_inv (I : GameState.t → Prop) move :
  (∀ g, wf g → I g → I (pass_fun move g)) →
  ∀ fuel g last g', wf g → wf last → I g →
    GameSession.loop fuel move g last = Ok g' → I g'.
Proof.
  intros Hpass fuel. induction fuel as [|fuel IH]; intros g last g' Hwf Hlast Hg;
    rewrite loop_unfold by done; case_bool_decide; try done.
  - by intros [= <-].
  - by intros [= <-].
  - apply IH; auto using wf_pass.
Qed.

(** What every visit of the scan keeps, [moveAllItemsInDir] keeps. *)
Lemma settle_inv (I : GameState.t → Prop) move g :
  (∀ g c, wf g → inside g c → I g → I (visit_fun move g c)) →
  wf g → I g → I (settle move g).
Proof.
  intros Hvisit Hwf Hg. destruct (settle_spec move g Hwf) as (Hrun & _).
  eapply (loop_inv I move); [| | |done|by apply (Hrun _ (Nat.le_refl _))].
  - intros g0 Hwf0 Hg0. by apply pass_inv.
  - done.
  - apply wf_init.
Qed.

(** The cells of the grid after [shiftOneItemTo]. *)
Lemma cell_shift s e g x y :
  wf g → inside g s → inside g e →
  cell (shift s e g) x y
  = match cell g e.1 e.2 with
    | None =>
        if decide ((x, y) = s) then None
        else if decide ((x, y) = e) then cell g s.1 s.2 else cell g x y
    | Some b =>
        if decide (cell g s.1 s.2 = Some b) then
          if decide ((x, y) = s) then None
          else if decide ((x, y) = e) then Some (b + b) else cell g x y
        else cell g x y
    end.
Proof.
  intros Hwf [Hs1 Hs2] [He1 He2]. destruct s as [sx sy], e as [ex ey].
  simpl in *. unfold shift. simpl.
  destruct (cell g ex ey) as [b|]; [case_decide; [|done]|];
    rewrite cell_upd by (rewrite ?size_upd; auto using wf_upd);
    (case_decide; [done|]); by rewrite cell_upd by done.
Qed.

(** A visit leaves the grid as it is exactly when the cell is empty, has
    no neighbour in the direction of the move, or is blocked by a tile of
    another value. *)
Lemma visit_fixed move g c :
  wf g → inside g c →
  visit_fun move g c = g
  ↔ ∀ a e, cell g c.1 c.2 = Some a →
           target move (GameState.size g) c.1 c.2 = Some e →
           ∃ b, cell g e.1 e.2 = Some b ∧ b ≠ a.
Proof.
  intros Hwf Hc. split.
  - intros Hfix a e Hcs Ht.
    destruct (cell g e.1 e.2) as [b|] eqn:Hce.
    + exists b. split; [done|]. intros ->.
      destruct (potential_shift_merge move c e g a) as (_ & _ & Hlt);
        [done..|].
      unfold visit_fun in Hfix. rewrite Hcs, Ht in Hfix. rewrite Hfix in Hlt.
      lia.
    + by destruct (visit_free move g c e a).
  - intros Hblocked. unfold visit_fun.
    destruct (cell g c.1 c.2) as [a|] eqn:Hcs; [|done].
    destruct (target move (GameState.size g) c.1 c.2) as [e|] eqn:Ht; [|done].
    destruct (Hblocked a e eq_refl eq_refl) as (b & Hce & Hne).
    by apply (shift_blocked c e g a b).
Qed.

Lemma foldl_fixed move cs g :
  (∀ c, c ∈ cs → visit_fun move g c = g) → foldl (visit_fun move) g cs = g.
Proof.
  induction cs as [|c cs IH]; intros Hall; [done|]. simpl.
  rewrite (Hall c) by apply list_elem_of_here.
  apply IH. intros c' Hc'. apply Hall. by apply list_elem_of_further.
Qed.

(** A pass changes nothing exactly on the grids in which every tile is
    blocked. *)
Lemma pass_fixed move g : wf g → pass_fun move g = g ↔ blocked move g.
Proof.
  intros Hwf. split.
  - intros Hfix c e a Hc Hcs Ht.
    destruct (pass_effect move g Hwf) as [_ [[_ Hall]|Hlt]].
    + by apply (proj1 (visit_fixed move g c Hwf Hc) (Hall c Hc) a e).
    + rewrite Hfix in Hlt. lia.
  - intros Hblocked. apply foldl_fixed. intros [x y] Hc.
    apply elem_of_coords in Hc. apply visit_fixed; [done..|].
    intros a e Hcs Ht. by apply (Hblocked (x, y) e a).
Qed.

Lemma blocked_init move n : blocked move (GameState.init n).
Proof. intros c e a _ Hcs. by rewrite cell_init in Hcs. Qed.

Lemma settle_blocked move g : wf g → blocked move (settle move g).
Proof.
  intros Hwf.
  destruct (move_spec move g Hwf)
    as (n & g' & _ & Hrun & Hwf' & _ & _ & _ & Hcases).
  assert (g' = settle move g) as Heq
    by (eapply settle_unique; [done|by apply (Hrun n)]).
  rewrite <-Heq.
  destruct Hcases as [(Hinit & -> & _)|(_ & Hfix & _)].
  - rewrite Hinit. apply blocked_init.
  - by apply pass_fixed.
Qed.

Lemma settle_fixed move g : wf g → settle move g = g ↔ blocked move g.
Proof.
  intros Hwf. destruct (settle_spec move g Hwf) as (_ & _ & _ & _ & _ & Hiff).
  rewrite Hiff, <-pass_fixed by done. split; [|by auto].
  intros [Hinit|Hfix]; [|done].
  apply pass_fixed; [done|]. rewrite Hinit. apply blocked_init.
Qed.

End invariants.

(** ** What a move keeps *)

Section kept.
Implicit Types (g : GameState.t) (move : Move.t) (c s e : Z * Z).

Lemma target_line move n x y e :
  target move n x y = Some e → line move e.1 e.2 = line move x y.
Proof.
  intros Ht. destruct move; simpl in *; case_bool_decide; by simplify_eq.
Qed.

Lemma visit_line_total move k g c :
  wf g → inside g c →
  line_total move k (visit_fun move g c) = line_total move k g.
Proof.
  intros Hwf Hc. destruct c as [cx cy]. unfold visit_fun. simpl.
  destruct (cell g cx cy) as [a|] eqn:Hcs; [|done].
  destruct (target move (GameState.size g) cx cy) as [e|] eqn:Ht; [|done].
  destruct (target_inside _ _ _ _ _ Hc Ht) as [He Hne].
  pose proof (target_line _ _ _ _ _ Ht) as Hline.
  destruct (cell g e.1 e.2) as [b|] eqn:Hce.
  - destruct (decide (a = b)) as [<-|Hab].
    + unfold line_total. rewrite (shift_merge _ (cx, cy) e g a) by done.
      cbn beta. cbn [fst snd]. rewrite Hline. unfold default, id.
      case_bool_decide; lia.
    + by rewrite (shift_blocked (cx, cy) e g a b).
  - unfold line_total. rewrite (shift_free _ (cx, cy) e g a) by done.
    cbn beta. cbn [fst snd]. rewrite Hline. unfold default, id.
      case_bool_decide; lia.
Qed.

Lemma visit_tiles move g c :
  wf g → inside g c → tiles (visit_fun move g c) ≤ tiles g.
Proof.
  intros Hwf Hc. destruct c as [cx cy]. unfold visit_fun. simpl.
  destruct (cell g cx cy) as [a|] eqn:Hcs; [|done].
  destruct (target move (GameState.size g) cx cy) as [e|] eqn:Ht; [|done].
  destruct (target_inside _ _ _ _ _ Hc Ht) as [He Hne].
  destruct (cell g e.1 e.2) as [b|] eqn:Hce.
  - destruct (decide (a = b)) as [<-|Hab].
    + unfold tiles. rewrite (shift_merge _ (cx, cy) e g a) by done. lia.
    + by rewrite (shift_blocked (cx, cy) e g a b).
  - unfold tiles. rewrite (shift_free _ (cx, cy) e g a) by done. lia.
Qed.

Lemma cell_inside g x y a : cell g x y = Some a → inside g (x, y).
Proof.
  intros Hc. apply dec_stable. intros Hout. by rewrite cell_outside in Hc.
Qed.

Lemma visit_cells move g c x y :
  wf g → inside g c →
  cell (visit_fun move g c) x y = cell g x y
  ∨ (∃ a e, cell g c.1 c.2 = Some a
            ∧ target move (GameState.size g) c.1 c.2 = Some e
            ∧ (((x, y) = c ∧ cell (visit_fun move g c) x y = None)
               ∨ ((x, y) = e ∧ cell g x y = None
                  ∧ cell (visit_fun move g c) x y = Some a)
               ∨ ((x, y) = e ∧ cell g x y = Some a
                  ∧ cell (visit_fun move g c) x y = Some (a + a)))).
Proof.
  intros Hwf Hc. unfold visit_fun.
  destruct (cell g c.1 c.2) as [a|] eqn:Hcs; [|by left].
  destruct (target move (GameState.size g) c.1 c.2) as [e|] eqn:Ht; [|by left].
  destruct (target_inside _ _ _ _ _ Hc Ht) as [He Hne].
  rewrite cell_shift by done.
  destruct (cell g e.1 e.2) as [b|] eqn:Hce.
  - rewrite Hcs. case_decide as Hab; [|by left]. injection Hab as ->.
    case_decide as Hxs; [right; exists b, e; by auto|].
    case_decide as Hxe; [|by left].
    right. exists b, e. split_and!; [done..|]. right. right.
    subst e. simpl in *. by auto.
  - case_decide as Hxs; [right; exists a, e; by auto|].
    case_decide as Hxe; [|by left].
    right. exists a, e. split_and!; [done..|]. right. left.
    subst e. simpl in *. by auto.
Qed.

(** After a shift or a merge the cell the tile came from is empty. *)
Lemma visit_source move g c :
  wf g → inside g c →
  visit_fun move g c = g ∨ cell (visit_fun move g c) c.1 c.2 = None.
Proof.
  intros Hwf Hc. unfold visit_fun.
  destruct (cell g c.1 c.2) as [a|] eqn:Hcs; [|by left].
  destruct (target move (GameState.size g) c.1 c.2) as [e|] eqn:Ht; [|by left].
  destruct (target_inside _ _ _ _ _ Hc Ht) as [He Hne].
  destruct (cell g e.1 e.2) as [b|] eqn:Hce.
  - destruct (decide (a = b)) as [<-|Hab].
    + right. rewrite cell_shift, Hce, Hcs by done.
      rewrite decide_True by done. rewrite decide_True by by destruct c. done.
    + left. by apply (shift_blocked c e g a b).
  - right. rewrite cell_shift, Hce by done.
    rewrite decide_True by by destruct c. done.
Qed.

Lemma visit_has_empty move g c :
  wf g → inside g c → has_empty g → has_empty (visit_fun move g c).
Proof.
  intros Hwf Hc Hempty.
  destruct (visit_source move g c Hwf Hc) as [->|Hsrc]; [done|].
  exists c.1, c.2. unfold inside. rewrite size_visit. simpl.
  split; [by destruct c|done].
Qed.

Lemma visit_has_tile move g c :
  wf g → inside g c → has_tile g → has_tile (visit_fun move g c).
Proof.
  intros Hwf Hc Htile. destruct c as [cx cy]. unfold visit_fun. simpl.
  destruct (cell g cx cy) as [a|] eqn:Hcs; [|done].
  destruct (target move (GameState.size g) cx cy) as [e|] eqn:Ht; [|done].
  destruct (target_inside _ _ _ _ _ Hc Ht) as [He Hne].
  destruct (cell g e.1 e.2) as [b|] eqn:Hce.
  - destruct (decide (a = b)) as [<-|Hab].
    + exists e.1, e.2, (a + a). rewrite cell_shift, Hce by done. simpl.
      rewrite Hcs, decide_True by done.
      rewrite decide_False by (by destruct e).
      by rewrite decide_True by (by destruct e).
    + by rewrite (shift_blocked (cx, cy) e g a b).
  - exists e.1, e.2, a. rewrite cell_shift, Hce by done. simpl.
    rewrite decide_False by (by destruct e).
    by rewrite decide_True by (by destruct e).
Qed.

Lemma visit_all_tiles (P : Z → Prop) move g c :
  (∀ a, P a → P (a + a)) →
  wf g → inside g c → all_tiles P g → all_tiles P (visit_fun move g c).
Proof.
  intros Hdouble Hwf Hc Hall x y a Ha.
  destruct (visit_cells move g c x y Hwf Hc)
    as [Hsame|(a' & e & Hcs & Ht & [[_ Hnew]|[(_ & _ & Hnew)|(_ & Hold & Hnew)]])].
  - apply (Hall x y). congruence.
  - congruence.
  - assert (a = a') as -> by congruence. by apply (Hall c.1 c.2).
  - assert (a = a' + a') as -> by congruence.
    by apply Hdouble, (Hall c.1 c.2).
Qed.

(** On a full board a visit changes nothing or leaves an empty cell. *)
Lemma foldl_full move cs g :
  wf g → Forall (inside g) cs → full g →
  foldl (visit_fun move) g cs = g ∨ has_empty (foldl (visit_fun move) g cs).
Proof.
  intros Hwf Hcs Hfull. induction cs as [|c cs IH]; [by left|].
  apply Forall_cons in Hcs as [Hc Hcs]. simpl.
  destruct (visit_source move g c Hwf Hc) as [->|Hsrc]; [by apply IH|].
  right. apply (foldl_inv has_empty move).
  - intros. by apply visit_has_empty.
  - by apply wf_visit.
  - eapply Forall_impl; [done|]. unfold inside. by rewrite size_visit.
  - exists c.1, c.2. unfold inside. rewrite size_visit. simpl.
    split; [by destruct c|done].
Qed.

Lemma settle_has_empty move g :
  wf g → has_empty g → has_empty (settle move g).
Proof.
  intros Hwf Hg. apply settle_inv; [|done..].
  intros. by apply visit_has_empty.
Qed.

(** A move on a full board either changes nothing or leaves an empty
    cell. *)
Lemma settle_full move g :
  wf g → full g → settle move g = g ∨ has_empty (settle move g).
Proof.
  intros Hwf Hfull.
  destruct (foldl_full move (coords (GameState.size g)) g Hwf)
    as [Hfix|Hempty]; [apply Forall_inside_coords|done| |].
  - left. apply settle_fixed, pass_fixed; done.
  - destruct (settle_spec move g Hwf) as (Hrun & _).
    pose proof (Hrun _ (Nat.le_refl _)) as Hs.
    unfold GameSession.moveAllItemsInDir_state in Hs.
    rewrite loop_unfold in Hs by auto using wf_init.
    case_bool_decide; [left; congruence|]. right.
    eapply (loop_inv has_empty move); [| | | |exact Hs].
    + intros g0 Hwf0 Hg0. apply pass_inv; [|done..].
      intros. by apply visit_has_empty.
    + by apply wf_pass.
    + done.
    + done.
Qed.

End kept.

(** ** Less fuel only ever means running out of fuel *)

Section stable.
Implicit Types (w : World) (self : loc) (move : Move.t) (g last : GameState.t).

Lemma loop_stable fuel fuel' move g last :
  (fuel ≤ fuel')%nat →
  GameSession.loop fuel move g last = OutOfFuel
  ∨ GameSession.loop fuel move g last = GameSession.loop fuel' move g last.
Proof.
  revert fuel' g last. induction fuel as [|fuel IH]; intros fuel' g last Hle.
  - simpl. destruct fuel'; simpl; destruct (GameState.eq g last) as [[]| |];
      simpl; auto.
  - destruct fuel' as [|fuel']; [lia|]. simpl.
    destruct (GameState.eq g last) as [[]| |]; simpl; auto.
    destruct (GameSession.pass move g) as [g1| |]; simpl; auto.
    apply IH. lia.
Qed.

Lemma stable_moveAllItemsInDir self move :
  stable (λ fuel, GameSession.moveAllItemsInDir fuel self move).
Proof.
  intros fuel fuel' w Hle.
  unfold GameSession.moveAllItemsInDir, on_state, mbind, M_bind.
  destruct (read_session self w) as [[o w1]| |]; [|by right..].
  destruct (read_grid (gameState o) w1) as [[g w2]| |]; [|by right..].
  unfold lift, GameSession.moveAllItemsInDir_state.
  destruct (loop_stable fuel fuel' move g
              (GameState.init (GameState.size g)) Hle) as [-> | ->]; auto.
Qed.

Lemma stable_forM_ {A} (f : nat → A → M unit) (xs : list A) :
  (∀ a, stable (λ fuel, f fuel a)) → stable (λ fuel, forM_ (f fuel) xs).
Proof.
  intros Hf fuel fuel' w Hle. revert w.
  induction xs as [|a xs IH]; intros w; simpl; [by right|].
  unfold mbind, M_bind.
  destruct (Hf a fuel fuel' w Hle) as [-> | ->]; [by left|].
  destruct (f fuel' a w) as [[[] w1]| |]; [|by right..]. apply IH.
Qed.

Lemma stable_bind {A B} (m : nat → M A) (f : nat → A → M B) :
  stable m → (∀ a, stable (λ fuel, f fuel a)) →
  stable (λ fuel, m fuel ≫= f fuel).
Proof.
  intros Hm Hf fuel fuel' w Hle. unfold mbind, M_bind.
  destruct (Hm fuel fuel' w Hle) as [-> | ->]; [by left|].
  destruct (m fuel' w) as [[a w1]| |]; [|by right..]. by apply Hf.
Qed.

Lemma stable_const {A} (m : M A) : stable (λ _, m).
Proof. intros fuel fuel' w _. by right. Qed.

Lemma stable_checkIfGameOver self :
  stable (λ fuel, GameSession.checkIfGameOver fuel self).
Proof.
  unfold GameSession.checkIfGameOver.
  apply (stable_bind (λ _, _)); [apply stable_const|intros []].
  apply (stable_bind (λ _, _)); [apply stable_const|intros state].
  apply (stable_bind (λ _, _)); [apply stable_const|intros cells].
  apply (stable_bind (λ _, _)); [apply stable_const|intros gameMoves].
  apply (stable_bind
           (λ fuel, forM_ (λ '(x, m), GameSession.moveAllItemsInDir fuel x m)
                          (zip gameMoves GameSession.movLs))
           (λ _ _, _)).
  - apply (stable_forM_
             (λ fuel '(x, m), GameSession.moveAllItemsInDir fuel x m)).
    intros [s m]. apply stable_moveAllItemsInDir.
  - intros []. apply stable_const.
Qed.

Lemma stable_nextMove self move :
  stable (λ fuel, GameSession.nextMove fuel self move).
Proof.
  unfold GameSession.nextMove.
  apply (stable_bind (λ fuel, GameSession.moveAllItemsInDir fuel self move)
                     (λ fuel _, _));
    [apply stable_moveAllItemsInDir|intros []].
  apply (stable_bind (λ fuel, GameSession.checkIfGameOver fuel self)
                     (λ _ _, _));
    [apply stable_checkIfGameOver|intros []].
  apply stable_const.
Qed.

End stable.

(** ** The sampler of [addNumToRandomPoint] *)

Section sampler.
Implicit Types (w : World) (self : loc) (move : Move.t) (g : GameState.t)
  (o : SessionObj) (tp : list Z).

(** A draw that hits a tile is thrown away. *)
Lemma sample_skip fuel val g r1 r2 tp :
  wf g → 0 < GameState.size g →
  cell g (r1 `mod` GameState.size g) (r2 `mod` GameState.size g) ≠ None →
  GameSession.sample (S fuel) val g (r1 :: r2 :: tp)
  = GameSession.sample fuel val g tp.
Proof.
  intros Hwf Hsz Hc. simpl. unfold randint.
  rewrite bool_decide_false by lia. simpl.
  replace (GameState.size g - 1 - 0 + 1) with (GameState.size g) by lia.
  pose proof (Z.mod_pos_bound r1 (GameState.size g) Hsz).
  pose proof (Z.mod_pos_bound r2 (GameState.size g) Hsz).
  rewrite getItem_ok by done. simpl. by rewrite bool_decide_false.
Qed.

Lemma sample_reject fuel val g ps r1 r2 rest :
  wf g → 0 < GameState.size g →
  Forall (λ p, cell g (p.1 `mod` GameState.size g)
                      (p.2 `mod` GameState.size g) ≠ None) ps →
  cell g (r1 `mod` GameState.size g) (r2 `mod` GameState.size g) = None →
  (length ps < fuel)%nat →
  GameSession.sample fuel val g (draws ps ++ r1 :: r2 :: rest)
  = Ok (upd g (r1 `mod` GameState.size g) (r2 `mod` GameState.size g)
            (Some val), rest).
Proof.
  intros Hwf Hsz Hps Hhit. revert fuel.
  induction Hps as [|[p1 p2] ps Hp _ IH]; intros fuel Hfuel.
  - destruct fuel as [|fuel]; [simpl in Hfuel; lia|]. by apply sample_draw.
  - destruct fuel as [|fuel]; [simpl in Hfuel; lia|].
    unfold draws. rewrite bind_cons. simpl app.
    rewrite sample_skip by done. apply IH. simpl in Hfuel. lia.
Qed.

Lemma length_draws (ps : list (Z * Z)) :
  length (draws ps) = (2 * length ps)%nat.
Proof.
  unfold draws. induction ps as [|p ps IH]; [done|].
  rewrite bind_cons, length_app, IH. simpl. lia.
Qed.

(** On a full board the loop never ends. *)
Lemma sample_full fuel val g tp :
  wf g → 0 < GameState.size g → full g →
  GameSession.sample fuel val g tp = OutOfFuel.
Proof.
  intros Hwf Hsz Hfull. revert tp.
  induction fuel as [|fuel IH]; intros tp; [done|].
  destruct tp as [|r1 [|r2 tp]].
  - simpl. unfold randint. by rewrite bool_decide_false by lia.
  - simpl. unfold randint. by rewrite bool_decide_false by lia.
  - rewrite sample_skip; [apply IH|done..|].
    pose proof (Z.mod_pos_bound r1 (GameState.size g) Hsz).
    pose proof (Z.mod_pos_bound r2 (GameState.size g) Hsz).
    by apply Hfull.
Qed.

(** On a grid without cells the first [randint(0, size-1)] fails. *)
Lemma sample_no_cells fuel val g tp :
  GameState.size g ≤ 0 →
  GameSession.sample (S fuel) val g tp = Raise ValueError.
Proof.
  intros Hsz. simpl. unfold randint. by rewrite bool_decide_true by lia.
Qed.

Lemma sample_never_raises fuel val g tp e :
  wf g → 0 < GameState.size g →
  GameSession.sample fuel val g tp ≠ Raise e.
Proof.
  intros Hwf Hsz. revert tp. induction fuel as [|fuel IH]; intros tp; [done|].
  destruct tp as [|r1 [|r2 tp]].
  - simpl. unfold randint. by rewrite bool_decide_false by lia.
  - simpl. unfold randint. by rewrite bool_decide_false by lia.
  - destruct (cell g (r1 `mod` GameState.size g) (r2 `mod` GameState.size g))
      as [a|] eqn:Hc.
    + rewrite sample_skip; [apply IH|done..|]. by rewrite Hc.
    + by rewrite sample_draw.
Qed.

(** The steps of [nextMove] with the stores in between: the move writes
    the settled grid, the check sets the flag, the spawn runs on that
    store. *)
Lemma nextMove_steps fuel self move w o g :
  sessions w !! self = Some o → grids w !! gameState o = Some g → wf g →
  GameSession.moveAllItemsInDir_state fuel move g = Ok (settle move g) →
  suffices fuel (settle move g) →
  ∃ w2,
    checked self o (settle move g)
      (mkWorld (sessions w) (<[gameState o := settle move g]> (grids w))
               (tape w)) w2
    ∧ GameSession.nextMove fuel self move w
      = (if negb (all_cells (λ v, bool_decide (v ≠ None)) (settle move g))
         then GameSession.addNumToRandomPoint self 2 else mret ()) w2.
Proof.
  intros Hs Hg Hwf Hrun Hfuel.
  destruct (settle_spec move g Hwf) as (_ & Hwf1 & _).
  set (w1 := mkWorld (sessions w)
                     (<[gameState o := settle move g]> (grids w)) (tape w)).
  assert (Hmove : GameSession.moveAllItemsInDir fuel self move w = Ok ((), w1)).
  { unfold GameSession.moveAllItemsInDir, on_state.
    rewrite (bind_Ok _ _ _ _ _ (read_session_ok _ _ _ Hs)).
    rewrite (bind_Ok _ _ _ _ _ (read_grid_ok _ _ _ Hg)).
    by rewrite (bind_Ok _ _ _ _ _ (lift_ok _ _ _ Hrun)). }
  assert (Hg1 : grids w1 !! gameState o = Some (settle move g))
    by apply lookup_insert_eq.
  destruct (checkIfGameOver_spec fuel self w1 o _ Hs Hg1 Hwf1 Hfuel)
    as (w2 & Hcheck & Hchecked).
  pose proof Hchecked as (Hs2 & Hg2 & _).
  destruct (all_comprehension (λ v, bool_decide (v ≠ None)) _ Hwf1)
    as (cells & Hcells & Hall).
  exists w2. split; [done|].
  unfold GameSession.nextMove.
  rewrite (bind_Ok _ _ _ _ _ Hmove), (bind_Ok _ _ _ _ _ Hcheck).
  rewrite (bind_Ok _ _ _ _ _ (state_of_ok _ _ _ _ Hs2 Hg2)).
  rewrite (bind_Ok _ _ _ _ _ (lift_ok _ _ _ Hcells)).
  by rewrite Hall.
Qed.

Lemma full_all_cells g :
  all_cells (λ v, bool_decide (v ≠ None)) g = true ↔ full g.
Proof.
  rewrite all_cells_true. split; intros Hall x y Hin.
  - specialize (Hall x y Hin). by apply bool_decide_eq_true in Hall.
  - by apply bool_decide_eq_true, Hall.
Qed.

Lemma not_full_has_empty g :
  all_cells (λ v, bool_decide (v ≠ None)) g = false → has_empty g.
Proof.
  intros Hall. apply all_cells_false in Hall as (x & y & Hin & Hc).
  exists x, y. split; [done|]. apply bool_decide_eq_false in Hc.
  destruct (cell g x y) as [a|]; [|done]. by destruct Hc.
Qed.

Lemma has_empty_size g : has_empty g → 0 < GameState.size g.
Proof. intros (x & y & [Hx _] & _). simpl in Hx. lia. Qed.

Lemma has_empty_not_full g : has_empty g → ¬ full g.
Proof. intros (x & y & Hin & He) Hfull. by apply (Hfull x y). Qed.

(** What [nextMove] returns, at any fuel: [None] for the grid the spawn
    step was skipped on. *)
Lemma nextMove_result fuel self move w o g w' :
  sessions w !! self = Some o → grids w !! gameState o = Some g → wf g →
  GameSession.nextMove fuel self move w = Ok ((), w') →
  sessions w' !! self
  = Some (mkSession (gameState o) (game_over (settle move g)))
  ∧ (∀ l h, l ≠ gameState o → grids w !! l = Some h → grids w' !! l = Some h)
  ∧ (∀ s p, s ≠ self → sessions w !! s = Some p → sessions w' !! s = Some p)
  ∧ ((full (settle move g)
      ∧ grids w' !! gameState o = Some (settle move g) ∧ tape w' = tape w)
     ∨ (∃ x y, inside (settle move g) (x, y)
               ∧ cell (settle move g) x y = None
               ∧ grids w' !! gameState o
                 = Some (upd (settle move g) x y (Some 2)))).
Proof.
  intros Hs Hg Hwf Hrun. destruct (nextMove_fuel move g Hwf) as (n & Hn).
  apply (mono_nextMove self move fuel (fuel `max` n)%nat) in Hrun; [|lia].
  destruct (Hn (fuel `max` n)%nat) as [Hmove Hsuff]; [lia|].
  destruct (nextMove_steps _ self move w o g Hs Hg Hwf Hmove Hsuff)
    as (w2 & (Hs2 & Hg2 & Htape & Hgrids & Hsess) & Heq).
  rewrite Heq in Hrun. simpl in Htape.
  destruct (settle_spec move g Hwf) as (_ & Hwf1 & _).
  assert (Hold : ∀ l h, l ≠ gameState o → grids w !! l = Some h →
                        grids w2 !! l = Some h).
  { intros l h Hne Hl. apply Hgrids. simpl. by rewrite lookup_insert_ne. }
  destruct (all_cells _ (settle move g)) eqn:Hall; simpl in Hrun.
  - injection Hrun as <-. split_and!; [done..|]. left.
    by apply full_all_cells in Hall.
  - apply (addNumToRandomPoint_inv _ _ _ _ _ _ Hs2 Hg2) in Hrun
      as (g2 & tp' & Hsample & ->).
    apply sample_spec in Hsample as (x & y & Hin & He & ->); [|done].
    simpl. split_and!; [done| |done|].
    + intros l h Hne Hl. rewrite lookup_insert_ne by done. by apply Hold.
    + right. exists x, y. split_and!; [done..|]. apply lookup_insert_eq.
Qed.

End sampler.

(** ** Writes to the grid *)

Section writes.
Implicit Types (g : GameState.t) (x y : Z) (v : option Z).

Lemma upd_upd g x y v v' :
  wf g → inside g (x, y) → upd (upd g x y v) x y v' = upd g x y v'.
Proof.
  intros Hwf [Hx Hy]. simpl in *.
  apply wf_ext; rewrite ?size_upd; auto using wf_upd.
  intros x' y' _ _.
  rewrite !cell_upd by (rewrite ?size_upd; auto using wf_upd).
  by case_decide.
Qed.

Lemma upd_comm g x y v x2 y2 v2 :
  wf g → inside g (x, y) → inside g (x2, y2) → (x, y) ≠ (x2, y2) →
  upd (upd g x y v) x2 y2 v2 = upd (upd g x2 y2 v2) x y v.
Proof.
  intros Hwf [Hx Hy] [Hx2 Hy2] Hne. simpl in *.
  apply wf_ext; rewrite ?size_upd; auto using wf_upd.
  intros x' y' _ _.
  rewrite !cell_upd by (rewrite ?size_upd; auto using wf_upd).
  repeat case_decide; congruence.
Qed.

Lemma upd_same g x y :
  wf g → inside g (x, y) → upd g x y (cell g x y) = g.
Proof.
  intros Hwf [Hx Hy]. simpl in *.
  apply wf_ext; rewrite ?size_upd; auto using wf_upd.
  intros x' y' _ _. rewrite cell_upd by done.
  case_decide; [|done]. by simplify_eq.
Qed.

Lemma moveAllItemsInDir_returns (move : Move.t) g :
  wf g →
  ∃ n : nat, ∀ fuel, (n ≤ fuel)%nat →
    ∃ g', GameSession.moveAllItemsInDir_state fuel move g = Ok g'.
Proof.
  intros Hwf. destruct (settle_spec move g Hwf) as (Hrun & _).
  eexists. intros fuel Hfuel. eexists. by apply Hrun.
Qed.

End writes.

(** ** Sessions over several calls *)

Section sessions.
Implicit Types (w : World) (self : loc) (move : Move.t) (g : GameState.t)
  (o : SessionObj).

(** For suitable draws [nextMove] returns. *)
Lemma nextMove_can_return self move w o g :
  sessions w !! self = Some o → grids w !! gameState o = Some g → wf g →
  ∃ n : nat, ∀ fuel, (n ≤ fuel)%nat →
    ∃ tp w', GameSession.nextMove fuel self move
               (mkWorld (sessions w) (grids w) tp) = Ok ((), w').
Proof.
  intros Hs Hg Hwf. destruct (nextMove_fuel move g Hwf) as (n & Hn).
  exists n. intros fuel Hfuel. destruct (Hn fuel Hfuel) as [Hmove Hsuff].
  destruct (settle_spec move g Hwf) as (_ & Hwf1 & _).
  destruct (all_cells (λ v, bool_decide (v ≠ None)) (settle move g)) eqn:Hall.
  - exists [].
    destruct (nextMove_steps fuel self move (mkWorld (sessions w) (grids w) [])
                o g Hs Hg Hwf Hmove Hsuff) as (w2 & _ & Heq).
    rewrite Heq, Hall. simpl. by eexists.
  - destruct (not_full_has_empty _ Hall) as (x & y & Hin & He).
    exists [x; y].
    destruct (nextMove_steps fuel self move
                (mkWorld (sessions w) (grids w) [x; y])
                o g Hs Hg Hwf Hmove Hsuff)
      as (w2 & (Hs2 & Hg2 & Htape & _) & Heq).
    rewrite Heq, Hall. simpl. eexists.
    eapply addNumToRandomPoint_ok; [exact Hs2|exact Hg2|].
    rewrite Htape. simpl. unfold GameSession.addNumToRandomPoint_state.
    by apply sample_hit.
Qed.

Lemma game_over_size g : game_over g = true → 0 < GameState.size g.
Proof.
  unfold game_over. intros Hover. apply andb_true_iff in Hover as [Hne _].
  apply negb_true_iff, all_cells_false in Hne as (x & y & [Hx _] & _).
  simpl in Hx. lia.
Qed.

(** When the flag comes out true, the grid was full and stuck before the
    move, and the move left it as it was. *)
Lemma game_over_settle move g :
  wf g → game_over (settle move g) = true →
  settle move g = g ∧ full g ∧ ∀ m, blocked m g.
Proof.
  intros Hwf Hover. destruct (settle_spec move g Hwf) as (_ & Hwf1 & Hsz & _).
  pose proof (game_over_size _ Hover) as Hpos.
  apply game_over_true in Hover as [Hfull1 Hstuck]; [|done..].
  assert (Hfull : full g).
  { intros x y Hin He.
    destruct (settle_has_empty move g Hwf) as (x1 & y1 & Hin1 & He1);
      [by exists x, y|]. by apply (Hfull1 x1 y1). }
  assert (Hfix : settle move g = g).
  { destruct (settle_full move g Hwf Hfull) as [?|(x1 & y1 & Hin1 & He1)];
      [done|]. by destruct (Hfull1 x1 y1). }
  split_and!; [done..|].
  intros m. apply settle_fixed; [done|]. rewrite <-Hfix at 2.
  rewrite <-(Hstuck m). by rewrite Hfix.
Qed.

Lemma game_over_blocked g :
  wf g → 0 < GameState.size g → full g → (∀ m, blocked m g) →
  game_over g = true.
Proof.
  intros Hwf Hsz Hfull Hblocked. apply game_over_true; [done..|].
  split; [done|]. intros m. by apply settle_fixed.
Qed.

Lemma wf_no_cells g :
  wf g → GameState.size g ≤ 0 → g = GameState.init (GameState.size g).
Proof.
  intros [Hlen _] Hsz. destruct g as [n d]. simpl in *.
  unfold GameState.init, range. rewrite seqZ_nil by done. simpl. f_equal.
  apply nil_length_inv. lia.
Qed.

(** What holds of all tiles and is kept by doubling, [nextMove] keeps,
    provided it holds of 2. *)
Lemma nextMove_all_tiles (P : Z → Prop) fuel self move w o g w' :
  (∀ a, P a → P (a + a)) → P 2 →
  sessions w !! self = Some o → grids w !! gameState o = Some g → wf g →
  all_tiles P g →
  GameSession.nextMove fuel self move w = Ok ((), w') →
  ∃ o' g', sessions w' !! self = Some o' ∧ grids w' !! gameState o' = Some g'
           ∧ wf g' ∧ GameState.size g' = GameState.size g ∧ all_tiles P g'.
Proof.
  intros Hdouble H2 Hs Hg Hwf Hall Hrun.
  destruct (nextMove_result fuel self move w o g w' Hs Hg Hwf Hrun)
    as (Hs' & _ & _ & Hcases).
  destruct (settle_spec move g Hwf) as (_ & Hwf1 & Hsz & _).
  assert (Hall1 : all_tiles P (settle move g)).
  { apply settle_inv; [|done..]. intros. by apply visit_all_tiles. }
  destruct Hcases as [(_ & Hg' & _)|(x & y & [Hx Hy] & He & Hg')];
    eexists _, _; (split; [exact Hs'|]); simpl; (split; [exact Hg'|]).
  - done.
  - split_and!; [by apply wf_upd|by rewrite size_upd|].
    intros x' y' a Ha. simpl in *. rewrite cell_upd in Ha by done.
    case_decide; [|by apply (Hall1 x' y')]. by simplify_eq.
Qed.

Lemma play_all_tiles (P : Z → Prop) fuel self moves :
  (∀ a, P a → P (a + a)) → P 2 →
  ∀ w o g w',
    sessions w !! self = Some o → grids w !! gameState o = Some g → wf g →
    all_tiles P g →
    play fuel self moves w = Ok ((), w') →
    ∃ o' g', sessions w' !! self = Some o' ∧ grids w' !! gameState o' = Some g'
             ∧ wf g' ∧ GameState.size g' = GameState.size g ∧ all_tiles P g'.
Proof.
  intros Hdouble H2. induction moves as [|m moves IH];
    intros w o g w' Hs Hg Hwf Hall Hrun; simpl in Hrun.
  - injection Hrun as <-. by exists o, g.
  - rewrite (bind_Ok _ _ _ _ _ (read_session_ok _ _ _ Hs)) in Hrun.
    destruct (isGameOver o).
    + injection Hrun as <-. by exists o, g.
    + apply bind_inv in Hrun as ([] & w1 & Hnext & Hrun).
      destruct (nextMove_all_tiles P fuel self m w o g w1)
        as (o1 & g1 & Hs1 & Hg1 & Hwf1 & Hsz1 & Hall1); [done..|].
      destruct (IH w1 o1 g1 w' Hs1 Hg1 Hwf1 Hall1 Hrun)
        as (o' & g' & ? & ? & ? & Hsz' & ?).
      exists o', g'. split_and!; [done..|congruence|done].
Qed.

Lemma power_of_two_double a : power_of_two a → power_of_two (a + a).
Proof.
  intros (k & Hk & ->). exists (k + 1). split; [lia|].
  rewrite Z.pow_add_r by lia. lia.
Qed.

Lemma power_of_two_2 : power_of_two 2.
Proof. exists 1. split; [lia|done]. Qed.

End sessions.

(** * The properties of the specification *)

(** C2: on the size-4 grid whose row 0 is [2, 2, 2, empty] and whose other
    cells are empty, [moveAllItemsInDir(left)] run to its fixed point (two
    runs of the loop body, whatever fuel is left over) yields row 0 equal to
    [4, 2, empty, empty] and leaves the other cells empty. *)
Theorem cascade_left_222 (spare : nat) :
  GameSession.moveAllItemsInDir_state (2 + spare) Move.left row222
  = Ok (GameState.mk 4 [[Some 4; Some 2; None; None];
                        [None; None; None; None];
                        [None; None; None; None];
                        [None; None; None; None]]).
Proof.
  apply (loop_mono 2 (2 + spare)); [lia|]. vm_compute. reflexivity.
Qed.

(** C4: [moveAllItemsInDir(d)] is idempotent: it returns a grid [g'], and
    run again on [g'] (no spawn in between) it returns [g'] again. *)
Theorem moveAllItemsInDir_idempotent (move : Move.t) (g : GameState.t) :
  wf g →
  ∃ g',
    (∃ n : nat, ∀ fuel, (n ≤ fuel)%nat →
       GameSession.moveAllItemsInDir_state fuel move g = Ok g')
    ∧ (∀ fuel, (1 ≤ fuel)%nat →
         GameSession.moveAllItemsInDir_state fuel move g' = Ok g')
    ∧ (∀ fuel1 fuel2 g1 g2,
         GameSession.moveAllItemsInDir_state fuel1 move g = Ok g1 →
         GameSession.moveAllItemsInDir_state fuel2 move g1 = Ok g2 →
         g2 = g1).
Proof.
  intros Hwf.
  destruct (move_spec move g Hwf)
    as (n & g' & _ & Hrun & Hwf' & Hsz & _ & _ & Hcases).
  assert (Hagain : ∀ fuel, (1 ≤ fuel)%nat →
            GameSession.moveAllItemsInDir_state fuel move g' = Ok g').
  { intros [|fuel] Hfuel; [lia|]. unfold GameSession.moveAllItemsInDir_state.
    rewrite loop_unfold by auto using wf_init.
    case_bool_decide; [done|].
    destruct Hcases as [(Hinit & -> & _)|(_ & Hfix & _)]; [done|].
    rewrite Hfix, loop_unfold by done. by rewrite bool_decide_true. }
  exists g'. split_and!; [by exists n|done|].
  intros fuel1 fuel2 g1 g2 H1 H2.
  assert (g1 = g') as ->.
  { eapply move_det; [done|]. by apply (Hrun (n `max` fuel1)%nat), Nat.le_max_l. }
  eapply move_det; [done|]. by apply (Hagain 1%nat).
Qed.

Lemma moveAllItemsInDir_idempotent_witness :
  ∃ g',
    (∃ n : nat, ∀ fuel, (n ≤ fuel)%nat →
       GameSession.moveAllItemsInDir_state fuel Move.left row222 = Ok g')
    ∧ (∀ fuel, (1 ≤ fuel)%nat →
         GameSession.moveAllItemsInDir_state fuel Move.left g' = Ok g')
    ∧ (∀ fuel1 fuel2 g1 g2,
         GameSession.moveAllItemsInDir_state fuel1 Move.left row222 = Ok g1 →
         GameSession.moveAllItemsInDir_state fuel2 Move.left g1 = Ok g2 →
         g2 = g1).
Proof.
  apply (moveAllItemsInDir_idempotent Move.left row222).
  split; [reflexivity|repeat constructor].
Defined.

(** C6: the fixed-point loop of [moveAllItemsInDir] terminates.  A pass
    that changes the grid strictly lowers the potential (tile count plus
    total displacement from the target edge), which is never negative; the
    loop returns after at most [1 + potential] runs of its body, and a pass
    over the grid it returns changes nothing. *)
Theorem moveAllItemsInDir_terminates (move : Move.t) (g : GameState.t) :
  wf g →
  (∃ g1, GameSession.pass move g = Ok g1
         ∧ (g1 ≠ g → 0 ≤ potential move g1 < potential move g))
  ∧ ∃ (n : nat) g',
      Z.of_nat n ≤ 1 + potential move g
      ∧ (∀ fuel, (n ≤ fuel)%nat →
           GameSession.moveAllItemsInDir_state fuel move g = Ok g')
      ∧ GameSession.pass move g' = Ok g'.
Proof.
  intros Hwf. split.
  - exists (pass_fun move g). split; [by apply pass_ok|]. intros Hne.
    pose proof (potential_nonneg move (pass_fun move g)).
    destruct (pass_effect move g Hwf) as [_ [[Hfix _]|Hlt]]; [done|lia].
  - destruct (move_spec move g Hwf)
      as (n & g' & Hn & Hrun & Hwf' & _ & _ & _ & Hcases).
    exists n, g'. split_and!; [done..|].
    rewrite pass_ok by done. f_equal.
    destruct Hcases as [(Hinit & -> & _)|(_ & Hfix & _)]; [|done].
    destruct (pass_effect move g Hwf) as [_ [[Hfix _]|Hlt]]; [done|].
    pose proof (potential_nonneg move (pass_fun move g)).
    assert (potential move g = 0) by (rewrite Hinit; apply potential_init).
    lia.
Qed.

Lemma moveAllItemsInDir_terminates_witness :
  (∃ g1, GameSession.pass Move.left row222 = Ok g1
         ∧ (g1 ≠ row222 → 0 ≤ potential Move.left g1 < potential Move.left row222))
  ∧ ∃ (n : nat) g',
      Z.of_nat n ≤ 1 + potential Move.left row222
      ∧ (∀ fuel, (n ≤ fuel)%nat →
           GameSession.moveAllItemsInDir_state fuel Move.left row222 = Ok g')
      ∧ GameSession.pass Move.left g' = Ok g'.
Proof.
  apply (moveAllItemsInDir_terminates Move.left row222).
  split; [reflexivity|repeat constructor].
Defined.

(** C9: [moveAllItemsInDir] preserves the sum of the values on the board:
    it returns, and whatever it returns has the total of the grid it was
    given. *)
Theorem moveAllItemsInDir_total (move : Move.t) (g : GameState.t) :
  wf g →
  (∃ (n : nat) g', ∀ fuel, (n ≤ fuel)%nat →
     GameSession.moveAllItemsInDir_state fuel move g = Ok g')
  ∧ (∀ fuel g', GameSession.moveAllItemsInDir_state fuel move g = Ok g' →
       total g' = total g).
Proof.
  intros Hwf.
  destruct (move_spec move g Hwf) as (n & g' & _ & Hrun & Hwf' & _ & Htot & _).
  split; [by exists n, g'|]. intros fuel g1 H1.
  assert (g1 = g') as ->; [|rewrite !total_cells by done; done].
  eapply move_det; [done|]. by apply (Hrun (n `max` fuel)%nat), Nat.le_max_l.
Qed.

Lemma moveAllItemsInDir_total_witness :
  (∃ (n : nat) g', ∀ fuel, (n ≤ fuel)%nat →
     GameSession.moveAllItemsInDir_state fuel Move.left row222 = Ok g')
  ∧ (∀ fuel g', GameSession.moveAllItemsInDir_state fuel Move.left row222 = Ok g' →
       total g' = total row222).
Proof.
  apply (moveAllItemsInDir_total Move.left row222).
  split; [reflexivity|repeat constructor].
Defined.

(** C8: on a grid of [size] rows of [size] cells, [getItem(x, y)] and
    [setItem(x, y, v)] fail, with the assertion, exactly when x or y lies
    outside [0, size).  Inside, [getItem] returns the contents of
    [data[y][x]], and [setItem] returns a grid of the same size in which
    cell (x, y) holds [v] and every other cell reads as before. *)
Theorem getItem_setItem_range (g : GameState.t) (x y : Z) (v : option Z) :
  wf g →
  (GameState.getItem g x y = Raise AssertionError
   ↔ ¬ (0 ≤ x < GameState.size g ∧ 0 ≤ y < GameState.size g))
  ∧ (GameState.setItem g x y v = Raise AssertionError
     ↔ ¬ (0 ≤ x < GameState.size g ∧ 0 ≤ y < GameState.size g))
  ∧ (0 ≤ x < GameState.size g ∧ 0 ≤ y < GameState.size g →
     (∃ row c, GameState.data g !! Z.to_nat y = Some row
               ∧ row !! Z.to_nat x = Some c
               ∧ GameState.getItem g x y = Ok c)
     ∧ ∃ g', GameState.setItem g x y v = Ok g'
             ∧ wf g' ∧ GameState.size g' = GameState.size g
             ∧ GameState.getItem g' x y = Ok v
             ∧ ∀ x' y', (x', y') ≠ (x, y) →
                 GameState.getItem g' x' y' = GameState.getItem g x' y').
Proof.
  intros Hwf. split_and!.
  - split; [|apply getItem_assert]. intros Hfail [Hx Hy].
    by rewrite getItem_ok in Hfail.
  - split; [|apply setItem_assert]. intros Hfail [Hx Hy].
    by rewrite setItem_ok in Hfail.
  - intros [Hx Hy]. split.
    + destruct (wf_lookup g x y) as (row & Hrow & _ & Hc); [done..|].
      exists row, (cell g x y). by rewrite getItem_ok.
    + exists (upd g x y v).
      rewrite setItem_ok, size_upd by done.
      split_and!; [done|by apply wf_upd|done| |].
      * by rewrite getItem_ok, cell_upd_eq by (rewrite ?size_upd; auto using wf_upd).
      * intros x' y' Hne.
        destruct (decide (0 ≤ x' < GameState.size g ∧ 0 ≤ y' < GameState.size g))
          as [[Hx' Hy']|Hout].
        -- rewrite !getItem_ok by (rewrite ?size_upd; auto using wf_upd).
           f_equal. apply cell_upd_ne; [lia..|done].
        -- rewrite !getItem_assert by (by rewrite ?size_upd). done.
Qed.

Lemma getItem_setItem_range_witness :
  (GameState.getItem row222 3 0 = Raise AssertionError
   ↔ ¬ (0 ≤ 3 < GameState.size row222 ∧ 0 ≤ 0 < GameState.size row222))
  ∧ (GameState.setItem row222 3 0 (Some 2) = Raise AssertionError
     ↔ ¬ (0 ≤ 3 < GameState.size row222 ∧ 0 ≤ 0 < GameState.size row222))
  ∧ (0 ≤ 3 < GameState.size row222 ∧ 0 ≤ 0 < GameState.size row222 →
     (∃ row c, GameState.data row222 !! Z.to_nat 0 = Some row
               ∧ row !! Z.to_nat 3 = Some c
               ∧ GameState.getItem row222 3 0 = Ok c)
     ∧ ∃ g', GameState.setItem row222 3 0 (Some 2) = Ok g'
             ∧ wf g' ∧ GameState.size g' = GameState.size row222
             ∧ GameState.getItem g' 3 0 = Ok (Some 2)
             ∧ ∀ x' y', (x', y') ≠ (3, 0) →
                 GameState.getItem g' x' y' = GameState.getItem row222 x' y').
Proof.
  apply (getItem_setItem_range row222 3 0 (Some 2)).
  split; [reflexivity|repeat constructor].
Defined.


(** C3: right after [checkIfGameOver] has run on a grid with at least one
    empty cell, [isGameOver] is false (and [checkIfGameOver] does return). *)
Theorem checkIfGameOver_empty_cell (self : loc) (w : World) (o : SessionObj)
    (g : GameState.t) (x y : Z) :
  sessions w !! self = Some o → grids w !! gameState o = Some g → wf g →
  GameState.getItem g x y = Ok None →
  (∃ n : nat, ∀ fuel, (n ≤ fuel)%nat →
     ∃ w', GameSession.checkIfGameOver fuel self w = Ok ((), w'))
  ∧ (∀ fuel w', GameSession.checkIfGameOver fuel self w = Ok ((), w') →
       the_flag w' self = Some false).
Proof.
  intros Hs Hg Hwf Hget.
  assert (Hin : inside g (x, y)).
  { apply dec_stable. intros Hout. by rewrite getItem_assert in Hget. }
  assert (Hc : cell g x y = None).
  { destruct Hin. rewrite getItem_ok in Hget by done. by injection Hget. }
  split.
  - exists (enough g). intros fuel Hfuel.
    destruct (checkIfGameOver_spec fuel self w o g) as (w' & Hrun & _);
      [done..|by apply enough_suffices|]. by exists w'.
  - intros fuel w' Hrun.
    destruct (checkIfGameOver_any fuel self w o g w') as (Hs' & _); [done..|].
    unfold the_flag. rewrite Hs'. simpl.
    by rewrite (game_over_empty_cell g x y).
Qed.

Lemma checkIfGameOver_empty_cell_witness :
  (∃ n : nat, ∀ fuel, (n ≤ fuel)%nat →
     ∃ w', GameSession.checkIfGameOver fuel 0%nat world222 = Ok ((), w'))
  ∧ (∀ fuel w',
       GameSession.checkIfGameOver fuel 0%nat world222 = Ok ((), w') →
       the_flag w' 0%nat = Some false).
Proof.
  apply (checkIfGameOver_empty_cell 0%nat world222 (mkSession 0%nat false)
           row222 3 0);
    [reflexivity|reflexivity|split; [reflexivity|repeat constructor]|reflexivity].
Defined.

(** C7: [checkIfGameOver] leaves the board alone.  It returns, and in the
    store it returns the session still refers to the same grid object, that
    object holds the grid it held before the call, the tape is untouched and
    every other object of the store before the call is unchanged: the four
    trial moves ran on objects the deep copies created.  Only the flag of
    the session may differ. *)
Theorem checkIfGameOver_frame (self : loc) (w : World) (o : SessionObj)
    (g : GameState.t) :
  sessions w !! self = Some o → grids w !! gameState o = Some g → wf g →
  (∃ n : nat, ∀ fuel, (n ≤ fuel)%nat →
     ∃ w', GameSession.checkIfGameOver fuel self w = Ok ((), w'))
  ∧ (∀ fuel w', GameSession.checkIfGameOver fuel self w = Ok ((), w') →
       the_state w' self = Some g
       ∧ (∃ b, sessions w' !! self = Some (mkSession (gameState o) b))
       ∧ tape w' = tape w
       ∧ (∀ l h, grids w !! l = Some h → grids w' !! l = Some h)
       ∧ (∀ s p, s ≠ self → sessions w !! s = Some p →
                 sessions w' !! s = Some p)).
Proof.
  intros Hs Hg Hwf. split.
  - exists (enough g). intros fuel Hfuel.
    destruct (checkIfGameOver_spec fuel self w o g) as (w' & Hrun & _);
      [done..|by apply enough_suffices|]. by exists w'.
  - intros fuel w' Hrun.
    destruct (checkIfGameOver_any fuel self w o g w')
      as (Hs' & Hg' & Htape & Hgrids & Hsess); [done..|].
    split_and!; [|by eexists|done..].
    unfold the_state. rewrite Hs'. done.
Qed.

Lemma checkIfGameOver_frame_witness :
  (∃ n : nat, ∀ fuel, (n ≤ fuel)%nat →
     ∃ w', GameSession.checkIfGameOver fuel 0%nat world222 = Ok ((), w'))
  ∧ (∀ fuel w',
       GameSession.checkIfGameOver fuel 0%nat world222 = Ok ((), w') →
       the_state w' 0%nat = Some row222
       ∧ (∃ b, sessions w' !! 0%nat
               = Some (mkSession (gameState (mkSession 0%nat false)) b))
       ∧ tape w' = tape world222
       ∧ (∀ l h, grids world222 !! l = Some h → grids w' !! l = Some h)
       ∧ (∀ s p, s ≠ 0%nat → sessions world222 !! s = Some p →
                 sessions w' !! s = Some p)).
Proof.
  apply (checkIfGameOver_frame 0%nat world222 (mkSession 0%nat false) row222);
    [reflexivity|reflexivity|split; [reflexivity|repeat constructor]].
Defined.



(** C10: a new [GameSession] of positive size has an all-empty grid and the
    flag false.  On it [moveAllItemsInDir] returns without running its loop
    body (no fuel is used), and the first [nextMove], whatever the move,
    leaves the flag false and puts one tile of value 2 on the board, at the
    first drawn position; every other cell stays empty. *)
Theorem first_nextMove (size : Z) (w : World) (move : Move.t) (fuel : nat)
    (r1 r2 : Z) (tp : list Z) :
  0 < size → tape w = r1 :: r2 :: tp →
  ∃ self w0,
    GameSession.init size w = Ok (self, w0)
    ∧ the_state w0 self = Some (GameState.init size)
    ∧ (∀ x y, 0 ≤ x < size → 0 ≤ y < size →
              GameState.getItem (GameState.init size) x y = Ok None)
    ∧ the_flag w0 self = Some false
    ∧ GameSession.moveAllItemsInDir_state 0 move (GameState.init size)
      = Ok (GameState.init size)
    ∧ ∃ w1 g1,
        GameSession.nextMove fuel self move w0 = Ok ((), w1)
        ∧ the_flag w1 self = Some false
        ∧ the_state w1 self = Some g1
        ∧ tape w1 = tp
        ∧ GameState.getItem g1 (r1 `mod` size) (r2 `mod` size) = Ok (Some 2)
        ∧ ∀ x y, 0 ≤ x < size → 0 ≤ y < size →
                 (x, y) ≠ (r1 `mod` size, r2 `mod` size) →
                 GameState.getItem g1 x y = Ok None.
Proof.
  intros Hsize Htape.
  set (l := fresh (dom (grids w))). set (self := fresh (dom (sessions w))).
  set (w0 := mkWorld (<[self := mkSession l false]> (sessions w))
                     (<[l := GameState.init size]> (grids w)) (tape w)).
  assert (Hs0 : sessions w0 !! self = Some (mkSession l false))
    by apply lookup_insert_eq.
  assert (Hg0 : grids w0 !! gameState (mkSession l false)
                = Some (GameState.init size)) by apply lookup_insert_eq.
  pose proof (wf_init size) as Hwf.
  exists self, w0. split_and!.
  - done.
  - unfold the_state. rewrite Hs0. exact Hg0.
  - intros x y Hx Hy. by rewrite getItem_ok, cell_init.
  - unfold the_flag. by rewrite Hs0.
  - apply move_init.
  - destruct (nextMove_prefix fuel self move w0 _ _ Hs0 Hg0 Hwf)
      as (w2 & Hs2 & Hg2 & Htape2 & Heq).
    { by rewrite move_init, settle_init. }
    { rewrite settle_init. apply suffices_init. }
    rewrite settle_init in *. simpl in Hs2, Hg2.
    assert (Hin0 : inside (GameState.init size) (0, 0))
      by (split; simpl; lia).
    assert (Hover : game_over (GameState.init size) = false).
    { apply (game_over_empty_cell _ 0 0); [done..|apply cell_init]. }
    assert (Hfull : all_cells (λ v, bool_decide (v ≠ None))
                      (GameState.init size) = false).
    { apply not_true_is_false. rewrite all_cells_true. intros Hall.
      specialize (Hall 0 0 Hin0). apply bool_decide_eq_true in Hall.
      by rewrite cell_init in Hall. }
    rewrite Hfull in Heq. simpl in Heq. rewrite Hover in Hs2.
    pose proof (Z.mod_pos_bound r1 size Hsize).
    pose proof (Z.mod_pos_bound r2 size Hsize).
    eexists _, (upd (GameState.init size) (r1 `mod` size) (r2 `mod` size)
                    (Some 2)).
    split_and!.
    + rewrite Heq. eapply addNumToRandomPoint_ok; [exact Hs2|exact Hg2|].
      rewrite Htape2. simpl. rewrite Htape.
      unfold GameSession.addNumToRandomPoint_state.
      rewrite sample_draw; [done..|apply cell_init].
    + unfold the_flag. simpl. by rewrite Hs2.
    + unfold the_state. simpl. rewrite Hs2. simpl. apply lookup_insert_eq.
    + done.
    + rewrite getItem_ok by (rewrite ?size_upd; auto using wf_upd).
      by rewrite cell_upd_eq.
    + intros x y Hx Hy Hne.
      rewrite getItem_ok by (rewrite ?size_upd; auto using wf_upd).
      rewrite cell_upd_ne by (done || lia). by rewrite cell_init.
Qed.

Lemma first_nextMove_witness :
  ∃ self w0,
    GameSession.init 2 (mkWorld ∅ ∅ [5; 3]) = Ok (self, w0)
    ∧ the_state w0 self = Some (GameState.init 2)
    ∧ (∀ x y, 0 ≤ x < 2 → 0 ≤ y < 2 →
              GameState.getItem (GameState.init 2) x y = Ok None)
    ∧ the_flag w0 self = Some false
    ∧ GameSession.moveAllItemsInDir_state 0 Move.up (GameState.init 2)
      = Ok (GameState.init 2)
    ∧ ∃ w1 g1,
        GameSession.nextMove 0 self Move.up w0 = Ok ((), w1)
        ∧ the_flag w1 self = Some false
        ∧ the_state w1 self = Some g1
        ∧ tape w1 = []
        ∧ GameState.getItem g1 (5 `mod` 2) (3 `mod` 2) = Ok (Some 2)
        ∧ ∀ x y, 0 ≤ x < 2 → 0 ≤ y < 2 →
                 (x, y) ≠ (5 `mod` 2, 3 `mod` 2) →
                 GameState.getItem g1 x y = Ok None.
Proof.
  apply (first_nextMove 2 (mkWorld ∅ ∅ [5; 3]) Move.up 0 5 3 []);
    [lia|reflexivity].
Defined.

(** C1 fails on the code.  After the last [nextMove] of [short_game] has
    returned, the board is full and none of the four moves changes it, yet
    [isGameOver] is false: the flag was computed before the spawn filled the
    last cell.  Only one more [nextMove], which changes nothing on the
    board, sets it. *)
Theorem stuck_board_not_flagged :
  ∃ self w,
    short_game = Ok (self, w)
    ∧ the_state w self = Some stuck_board
    ∧ all_cells (λ v, bool_decide (v ≠ None)) stuck_board = true
    ∧ (∀ move spare,
         GameSession.moveAllItemsInDir_state (1 + spare) move stuck_board
         = Ok stuck_board)
    ∧ the_flag w self = Some false
    ∧ ∃ w', GameSession.nextMove 3 self Move.left w = Ok ((), w')
            ∧ the_state w' self = Some stuck_board
            ∧ the_flag w' self = Some true.
Proof.
  eexists _, _. split; [vm_compute; reflexivity|].
  split_and!.
  - vm_compute. reflexivity.
  - vm_compute. reflexivity.
  - intros move spare. apply (loop_mono 1 (1 + spare)); [lia|].
    destruct move; vm_compute; reflexivity.
  - vm_compute. reflexivity.
  - eexists. split; [vm_compute; reflexivity|].
    split; vm_compute; reflexivity.
Qed.

(** * Further properties of the code *)

(** X1: on well-formed grids [__eq__] raises nothing, and it returns True
    exactly when the two grids are the same: the same size and the same
    contents at every coordinate [getItem] accepts. *)
Theorem GameState_eq_decides (g1 g2 : GameState.t) :
  wf g1 → wf g2 →
  ∃ b, GameState.eq g1 g2 = Ok b
       ∧ (b = true ↔ g1 = g2)
       ∧ (b = true
          ↔ GameState.size g1 = GameState.size g2
            ∧ ∀ x y, GameState.getItem g1 x y = GameState.getItem g2 x y).
Proof.
  intros Hwf1 Hwf2. exists (bool_decide (g1 = g2)).
  split_and!; [by apply eq_ok|by rewrite bool_decide_eq_true|].
  rewrite bool_decide_eq_true. split; [by intros ->|].
  intros [Hsz Hget]. apply wf_ext; [done..|]. intros x y Hx Hy.
  specialize (Hget x y).
  rewrite !getItem_ok in Hget by (done || by rewrite <-Hsz).
  by injection Hget.
Qed.

Lemma GameState_eq_decides_witness :
  ∃ b, GameState.eq row222 stuck_board = Ok b
       ∧ (b = true ↔ row222 = stuck_board)
       ∧ (b = true
          ↔ GameState.size row222 = GameState.size stuck_board
            ∧ ∀ x y, GameState.getItem row222 x y
                     = GameState.getItem stuck_board x y).
Proof.
  apply (GameState_eq_decides row222 stuck_board);
    (split; [reflexivity|repeat constructor]).
Defined.

(** X2: how writes compose.  On a well-formed grid, for coordinates on the
    grid: a second [setItem] on the same cell replaces the first; [setItem]s
    on different cells commute; and writing back what [getItem] returned
    gives the grid unchanged. *)
Theorem setItem_compose (g : GameState.t) (x y x2 y2 : Z) (v v' : option Z) :
  wf g →
  0 ≤ x < GameState.size g ∧ 0 ≤ y < GameState.size g →
  0 ≤ x2 < GameState.size g ∧ 0 ≤ y2 < GameState.size g →
  (g1 ← GameState.setItem g x y v; GameState.setItem g1 x y v')
  = GameState.setItem g x y v'
  ∧ ((x, y) ≠ (x2, y2) →
     (g1 ← GameState.setItem g x y v; GameState.setItem g1 x2 y2 v')
     = (g1 ← GameState.setItem g x2 y2 v'; GameState.setItem g1 x y v))
  ∧ (v0 ← GameState.getItem g x y; GameState.setItem g x y v0) = Ok g.
Proof.
  intros Hwf [Hx Hy] [Hx2 Hy2]. split_and!.
  - rewrite !setItem_ok by done. simpl.
    rewrite setItem_ok by (rewrite ?size_upd; auto using wf_upd).
    f_equal. by apply upd_upd.
  - intros Hne. rewrite !setItem_ok by done. simpl.
    rewrite !setItem_ok by (rewrite ?size_upd; auto using wf_upd).
    f_equal. by apply upd_comm.
  - rewrite getItem_ok by done. simpl. rewrite setItem_ok by done.
    f_equal. by apply upd_same.
Qed.

Lemma setItem_compose_witness :
  (g1 ← GameState.setItem row222 3 0 (Some 2);
   GameState.setItem g1 3 0 (Some 8))
  = GameState.setItem row222 3 0 (Some 8)
  ∧ ((3, 0) ≠ (1, 2) →
     (g1 ← GameState.setItem row222 3 0 (Some 2);
      GameState.setItem g1 1 2 (Some 8))
     = (g1 ← GameState.setItem row222 1 2 (Some 8);
        GameState.setItem g1 3 0 (Some 2)))
  ∧ (v0 ← GameState.getItem row222 3 0; GameState.setItem row222 3 0 v0)
    = Ok row222.
Proof.
  apply (setItem_compose row222 3 0 1 2 (Some 2) (Some 8));
    [split; [reflexivity|repeat constructor]|simpl; lia|simpl; lia].
Defined.

(** X3: [shiftOneItemTo] on a well-formed grid.  It fails, with the
    assertion of [getItem], exactly when one of the two coordinate pairs is
    off the grid.  For two different cells on the grid it returns a grid of
    the same shape in which every third cell is as before, and: an empty
    destination receives the contents of the source, which becomes empty; a
    destination with the value of the source receives the double, and the
    source becomes empty; a destination with another value (or an empty
    source next to a tile) blocks, the grid is returned unchanged.  Called
    with twice the same cell holding a tile, it erases that tile. *)
Theorem shiftOneItemTo_outcomes (s e : Z * Z) (g : GameState.t) :
  wf g →
  (GameSession.shiftOneItemTo s e g = Raise AssertionError
   ↔ ¬ (inside g s ∧ inside g e))
  ∧ (inside g s → inside g e → s ≠ e →
     ∃ g', GameSession.shiftOneItemTo s e g = Ok g'
       ∧ wf g' ∧ GameState.size g' = GameState.size g
       ∧ (∀ x y, (x, y) ≠ s → (x, y) ≠ e → cell g' x y = cell g x y)
       ∧ (cell g e.1 e.2 = None →
          cell g' e.1 e.2 = cell g s.1 s.2 ∧ cell g' s.1 s.2 = None)
       ∧ (∀ a, cell g e.1 e.2 = Some a → cell g s.1 s.2 = Some a →
          cell g' e.1 e.2 = Some (a + a) ∧ cell g' s.1 s.2 = None)
       ∧ (∀ b, cell g e.1 e.2 = Some b → cell g s.1 s.2 ≠ Some b → g' = g))
  ∧ (inside g s → ∀ a, cell g s.1 s.2 = Some a →
     ∃ g', GameSession.shiftOneItemTo s s g = Ok g' ∧ cell g' s.1 s.2 = None).
Proof.
  intros Hwf. split_and!.
  - split.
    + intros Hfail [Hs He]. by rewrite shiftOneItemTo_ok in Hfail.
    + intros Hout. unfold GameSession.shiftOneItemTo.
      destruct (decide (inside g s)) as [[Hs1 Hs2]|Hs].
      * rewrite (getItem_ok g s.1 s.2) by done. simpl.
        rewrite getItem_assert; [reflexivity|]. intros He. apply Hout.
        split; [by split|exact He].
      * rewrite (getItem_assert g s.1 s.2); [reflexivity|]. intros Hs'.
        by apply Hs.
  - intros Hs He Hne. exists (shift s e g).
    rewrite shiftOneItemTo_ok, size_shift by done.
    split_and!; [done|by apply wf_shift|done|..].
    + intros x y Hxs Hxe. rewrite cell_shift by done.
      destruct (cell g e.1 e.2); repeat case_decide; done.
    + intros Hce. rewrite !cell_shift, Hce by done.
      destruct s as [sx sy], e as [ex ey]. simpl.
      rewrite decide_False by congruence. by rewrite !decide_True by done.
    + intros a Hce Hcs. rewrite !cell_shift, Hce, Hcs by done.
      destruct s as [sx sy], e as [ex ey]. simpl.
      rewrite (decide_True (P := Some a = Some a)) by done.
      rewrite decide_False by congruence. by rewrite !decide_True by done.
    + intros b Hce Hcs. unfold shift. rewrite Hce. by rewrite decide_False.
  - intros Hs a Hcs. exists (shift s s g).
    rewrite shiftOneItemTo_ok by done. split; [done|].
    rewrite cell_shift, Hcs by done. destruct s as [sx sy]. simpl.
    by rewrite !decide_True by done.
Qed.

Lemma shiftOneItemTo_outcomes_witness :
  (GameSession.shiftOneItemTo (1, 0) (0, 0) row222 = Raise AssertionError
   ↔ ¬ (inside row222 (1, 0) ∧ inside row222 (0, 0)))
  ∧ (inside row222 (1, 0) → inside row222 (0, 0) → (1, 0) ≠ (0, 0) →
     ∃ g', GameSession.shiftOneItemTo (1, 0) (0, 0) row222 = Ok g'
       ∧ wf g' ∧ GameState.size g' = GameState.size row222
       ∧ (∀ x y, (x, y) ≠ (1, 0) → (x, y) ≠ (0, 0) →
                 cell g' x y = cell row222 x y)
       ∧ (cell row222 (0, 0).1 (0, 0).2 = None →
          cell g' (0, 0).1 (0, 0).2 = cell row222 (1, 0).1 (1, 0).2
          ∧ cell g' (1, 0).1 (1, 0).2 = None)
       ∧ (∀ a, cell row222 (0, 0).1 (0, 0).2 = Some a →
               cell row222 (1, 0).1 (1, 0).2 = Some a →
          cell g' (0, 0).1 (0, 0).2 = Some (a + a)
          ∧ cell g' (1, 0).1 (1, 0).2 = None)
       ∧ (∀ b, cell row222 (0, 0).1 (0, 0).2 = Some b →
               cell row222 (1, 0).1 (1, 0).2 ≠ Some b → g' = row222))
  ∧ (inside row222 (1, 0) → ∀ a, cell row222 (1, 0).1 (1, 0).2 = Some a →
     ∃ g', GameSession.shiftOneItemTo (1, 0) (1, 0) row222 = Ok g'
           ∧ cell g' (1, 0).1 (1, 0).2 = None).
Proof.
  apply (shiftOneItemTo_outcomes (1, 0) (0, 0) row222).
  split; [reflexivity|repeat constructor].
Defined.

(** X4: what [moveAllItemsInDir] leaves behind.  In the grid it returns no
    tile can go further in the direction of the move: wherever a tile has a
    neighbour on the grid in that direction, the neighbour is a tile of
    another value.  So there is no gap between a tile and the target edge,
    and no two tiles that could still merge along the move. *)
Theorem moveAllItemsInDir_blocked (move : Move.t) (g : GameState.t) :
  wf g →
  ∃ g',
    (∃ n : nat, ∀ fuel, (n ≤ fuel)%nat →
       GameSession.moveAllItemsInDir_state fuel move g = Ok g')
    ∧ ∀ x y a e,
        cell g' x y = Some a →
        target move (GameState.size g') x y = Some e →
        ∃ b, cell g' e.1 e.2 = Some b ∧ b ≠ a.
Proof.
  intros Hwf. exists (settle move g).
  destruct (settle_spec move g Hwf) as (Hrun & _). split; [by eexists|].
  intros x y a e Ha Ht.
  apply (settle_blocked move g Hwf (x, y) e a); [|done..].
  by apply cell_inside in Ha.
Qed.

Lemma moveAllItemsInDir_blocked_witness :
  ∃ g',
    (∃ n : nat, ∀ fuel, (n ≤ fuel)%nat →
       GameSession.moveAllItemsInDir_state fuel Move.left row222 = Ok g')
    ∧ ∀ x y a e,
        cell g' x y = Some a →
        target Move.left (GameState.size g') x y = Some e →
        ∃ b, cell g' e.1 e.2 = Some b ∧ b ≠ a.
Proof.
  apply (moveAllItemsInDir_blocked Move.left row222).
  split; [reflexivity|repeat constructor].
Defined.

(** X5: when a move is a no-op.  [moveAllItemsInDir] returns the grid it
    was given exactly when every tile of that grid is already blocked in the
    direction of the move (in particular on the empty board, and when all
    tiles sit at the target edge with no equal neighbours along the move). *)
Theorem moveAllItemsInDir_unchanged (move : Move.t) (g : GameState.t) :
  wf g →
  (∃ n : nat, ∀ fuel, (n ≤ fuel)%nat →
     ∃ g', GameSession.moveAllItemsInDir_state fuel move g = Ok g')
  ∧ ∀ fuel g', GameSession.moveAllItemsInDir_state fuel move g = Ok g' →
    (g' = g ↔ blocked move g).
Proof.
  intros Hwf. split; [by apply moveAllItemsInDir_returns|].
  intros fuel g' Hrun.
  rewrite (settle_unique move g fuel g' Hwf Hrun). by apply settle_fixed.
Qed.

Lemma moveAllItemsInDir_unchanged_witness :
  (∃ n : nat, ∀ fuel, (n ≤ fuel)%nat →
     ∃ g', GameSession.moveAllItemsInDir_state fuel Move.left row222 = Ok g')
  ∧ ∀ fuel g', GameSession.moveAllItemsInDir_state fuel Move.left row222 = Ok g' →
    (g' = row222 ↔ blocked Move.left row222).
Proof.
  apply (moveAllItemsInDir_unchanged Move.left row222).
  split; [reflexivity|repeat constructor].
Defined.

(** X6: tiles stay on their line.  A move to the left or to the right
    keeps the sum of every row, a move up or down the sum of every column:
    shifts and merges only ever involve two cells of one line. *)
Theorem moveAllItemsInDir_line_total (move : Move.t) (k : Z)
    (g : GameState.t) :
  wf g →
  (∃ n : nat, ∀ fuel, (n ≤ fuel)%nat →
     ∃ g', GameSession.moveAllItemsInDir_state fuel move g = Ok g')
  ∧ ∀ fuel g', GameSession.moveAllItemsInDir_state fuel move g = Ok g' →
    line_total move k g' = line_total move k g.
Proof.
  intros Hwf. split; [by apply moveAllItemsInDir_returns|].
  intros fuel g' Hrun.
  rewrite (settle_unique move g fuel g' Hwf Hrun).
  apply (settle_inv (λ h, line_total move k h = line_total move k g));
    [|done..].
  intros h c Hwfh Hc Hh. by rewrite visit_line_total.
Qed.

Lemma moveAllItemsInDir_line_total_witness :
  (∃ n : nat, ∀ fuel, (n ≤ fuel)%nat →
     ∃ g', GameSession.moveAllItemsInDir_state fuel Move.left row222 = Ok g')
  ∧ ∀ fuel g', GameSession.moveAllItemsInDir_state fuel Move.left row222 = Ok g' →
    line_total Move.left 0 g' = line_total Move.left 0 row222.
Proof.
  apply (moveAllItemsInDir_line_total Move.left 0 row222).
  split; [reflexivity|repeat constructor].
Defined.

(** X7: a move never adds a tile, never fills the board and never clears
    it: the grid [moveAllItemsInDir] returns has at most as many tiles as
    the grid it was given, has an empty cell if that grid had one, and has
    a tile if that grid had one. *)
Theorem moveAllItemsInDir_tiles (move : Move.t) (g : GameState.t) :
  wf g →
  (∃ n : nat, ∀ fuel, (n ≤ fuel)%nat →
     ∃ g', GameSession.moveAllItemsInDir_state fuel move g = Ok g')
  ∧ ∀ fuel g', GameSession.moveAllItemsInDir_state fuel move g = Ok g' →
    tiles g' ≤ tiles g
    ∧ (has_empty g → has_empty g')
    ∧ (has_tile g → has_tile g').
Proof.
  intros Hwf. split; [by apply moveAllItemsInDir_returns|].
  intros fuel g' Hrun.
  rewrite (settle_unique move g fuel g' Hwf Hrun). split_and!.
  - apply (settle_inv (λ h, tiles h ≤ tiles g)); [|done|lia].
    intros h c Hwfh Hc Hh. pose proof (visit_tiles move h c Hwfh Hc). lia.
  - by apply settle_has_empty.
  - intros Htile. apply settle_inv; [|done..].
    intros. by apply visit_has_tile.
Qed.

Lemma moveAllItemsInDir_tiles_witness :
  (∃ n : nat, ∀ fuel, (n ≤ fuel)%nat →
     ∃ g', GameSession.moveAllItemsInDir_state fuel Move.left row222 = Ok g')
  ∧ ∀ fuel g', GameSession.moveAllItemsInDir_state fuel Move.left row222 = Ok g' →
    tiles g' ≤ tiles row222
    ∧ (has_empty row222 → has_empty g')
    ∧ (has_tile row222 → has_tile g').
Proof.
  apply (moveAllItemsInDir_tiles Move.left row222).
  split; [reflexivity|repeat constructor].
Defined.

(** X8: the boards of a game.  Whatever keys are pressed and whatever the
    random source draws, the board of a session created by
    [GameSession(size)] and driven by the loop of [main] keeps its shape
    ([size] rows of [size] cells) and holds nothing but powers of two from 2
    on: merging doubles a value and the spawn adds a 2. *)
Theorem play_boards (size : Z) (w0 : World) (fuel : nat)
    (moves : list Move.t) (self : loc) (w' : World) :
  (s ← GameSession.init size; play fuel s moves ≫= λ _ : unit, mret s) w0
  = Ok (self, w') →
  ∃ g, the_state w' self = Some g
       ∧ wf g ∧ GameState.size g = size
       ∧ ∀ x y a, cell g x y = Some a → power_of_two a.
Proof.
  intros Hrun. apply bind_inv in Hrun as (s & w & Hinit & Hrun).
  apply bind_inv in Hrun as ([] & w1 & Hplay & Hrun).
  injection Hrun as <- <-.
  set (l := fresh (dom (grids w0))) in *.
  assert (Hw : w = mkWorld (<[s := mkSession l false]> (sessions w0))
                           (<[l := GameState.init size]> (grids w0))
                           (tape w0)
               ∧ s = fresh (dom (sessions w0))).
  { unfold GameSession.init, alloc_grid, alloc_session, mbind, M_bind in Hinit.
    simpl in Hinit. by injection Hinit as <- <-. }
  destruct Hw as [-> _].
  destruct (play_all_tiles power_of_two fuel s moves power_of_two_double
              power_of_two_2
              (mkWorld (<[s := mkSession l false]> (sessions w0))
                       (<[l := GameState.init size]> (grids w0)) (tape w0))
              (mkSession l false) (GameState.init size) w1)
    as (o' & g' & Hs' & Hg' & Hwf' & Hsz' & Hall'); simpl.
  - apply lookup_insert_eq.
  - apply lookup_insert_eq.
  - apply wf_init.
  - intros x y a Ha. by rewrite cell_init in Ha.
  - done.
  - exists g'. split_and!; [|done..]. unfold the_state. by rewrite Hs'.
Qed.

Lemma play_boards_witness :
  ∃ g, the_state short_game_end.2 short_game_end.1 = Some g
       ∧ wf g ∧ GameState.size g = 2
       ∧ ∀ x y a, cell g x y = Some a → power_of_two a.
Proof.
  apply (play_boards 2 (mkWorld ∅ ∅ [0; 0; 1; 0; 0; 1; 0; 1; 1; 1; 1; 0]) 3
           [Move.up; Move.up; Move.up; Move.up; Move.up; Move.down]).
  vm_compute. reflexivity.
Defined.

(** X9: no exception escapes.  On a session with a well-formed grid,
    [moveAllItemsInDir], [checkIfGameOver] and [nextMove] never raise: the
    bounds tests of the scan keep every [getItem] and [setItem] on the grid,
    and [nextMove] calls the sampler only when there is an empty cell.  (All
    that can happen is that [nextMove] does not return, when the draws never
    hit an empty cell.) *)
Theorem session_never_raises (self : loc) (move : Move.t) (w : World)
    (o : SessionObj) (g : GameState.t) :
  sessions w !! self = Some o → grids w !! gameState o = Some g → wf g →
  ∀ fuel e,
    GameSession.moveAllItemsInDir fuel self move w ≠ Raise e
    ∧ GameSession.checkIfGameOver fuel self w ≠ Raise e
    ∧ GameSession.nextMove fuel self move w ≠ Raise e.
Proof.
  intros Hs Hg Hwf fuel e.
  destruct (nextMove_fuel move g Hwf) as (n & Hn).
  set (big := (fuel `max` (n `max` enough g))%nat).
  destruct (Hn big) as [Hmove Hsuff]; [lia|].
  split_and!.
  - destruct (stable_moveAllItemsInDir self move fuel big w) as [-> | ->];
      [lia|done|].
    unfold GameSession.moveAllItemsInDir, on_state.
    rewrite (bind_Ok _ _ _ _ _ (read_session_ok _ _ _ Hs)).
    rewrite (bind_Ok _ _ _ _ _ (read_grid_ok _ _ _ Hg)).
    by rewrite (bind_Ok _ _ _ _ _ (lift_ok _ _ _ Hmove)).
  - destruct (stable_checkIfGameOver self fuel big w) as [-> | ->];
      [lia|done|].
    destruct (checkIfGameOver_spec big self w o g) as (w' & -> & _);
      [done..|apply enough_suffices; [done|lia]|done].
  - destruct (stable_nextMove self move fuel big w) as [-> | ->]; [lia|done|].
    destruct (nextMove_steps big self move w o g Hs Hg Hwf Hmove Hsuff)
      as (w2 & (Hs2 & Hg2 & _) & ->).
    destruct (settle_spec move g Hwf) as (_ & Hwf1 & _).
    destruct (all_cells _ (settle move g)) eqn:Hall; simpl; [done|].
    unfold GameSession.addNumToRandomPoint.
    rewrite (bind_Ok _ _ _ _ _ (read_session_ok _ _ _ Hs2)).
    rewrite (bind_Ok _ _ _ _ _ (read_grid_ok _ _ _ Hg2)).
    unfold GameSession.sample_into, GameSession.addNumToRandomPoint_state.
    pose proof (sample_never_raises (S (length (tape w2))) 2 (settle move g)
                  (tape w2)) as Hsample.
    destruct (GameSession.sample _ _ _ _) as [[g2 tp2]|e'|]; [done| |done].
    exfalso. apply (Hsample e'); [done| |done].
    by apply has_empty_size, not_full_has_empty.
Qed.

Lemma session_never_raises_witness :
  GameSession.moveAllItemsInDir 1 0%nat Move.left world222
  ≠ Raise AssertionError
  ∧ GameSession.checkIfGameOver 1 0%nat world222 ≠ Raise AssertionError
  ∧ GameSession.nextMove 1 0%nat Move.left world222 ≠ Raise AssertionError.
Proof.
  apply (session_never_raises 0%nat Move.left world222
           (mkSession 0%nat false) row222);
    [reflexivity|reflexivity|split; [reflexivity|repeat constructor]].
Defined.



(** X11: what [checkIfGameOver] computes.  On a grid with cells (size at
    least 1) it returns, and it leaves [isGameOver] True exactly when no
    cell is empty and every tile is blocked in each of the four directions,
    that is, when the board is full and no two neighbours hold the same
    value. *)
Theorem checkIfGameOver_flag (self : loc) (w : World) (o : SessionObj)
    (g : GameState.t) :
  sessions w !! self = Some o → grids w !! gameState o = Some g → wf g →
  0 < GameState.size g →
  (∃ n : nat, ∀ fuel, (n ≤ fuel)%nat →
     ∃ w', GameSession.checkIfGameOver fuel self w = Ok ((), w'))
  ∧ ∀ fuel w', GameSession.checkIfGameOver fuel self w = Ok ((), w') →
      (the_flag w' self = Some true ↔ full g ∧ ∀ move, blocked move g).
Proof.
  intros Hs Hg Hwf Hsz. split.
  - exists (enough g). intros fuel Hfuel.
    destruct (checkIfGameOver_spec fuel self w o g) as (w' & Hrun & _);
      [done..|by apply enough_suffices|]. by exists w'.
  - intros fuel w' Hrun.
    destruct (checkIfGameOver_any fuel self w o g w') as (Hs' & _); [done..|].
    unfold the_flag. rewrite Hs'. simpl. split.
    + intros [= Hover]. apply game_over_true in Hover as [Hfull Hstuck];
        [|done..].
      split; [done|]. intros move. by apply settle_fixed.
    + intros [Hfull Hblocked]. f_equal. by apply game_over_blocked.
Qed.

Lemma checkIfGameOver_flag_witness :
  (∃ n : nat, ∀ fuel, (n ≤ fuel)%nat →
     ∃ w', GameSession.checkIfGameOver fuel 0%nat world_stuck = Ok ((), w'))
  ∧ ∀ fuel w', GameSession.checkIfGameOver fuel 0%nat world_stuck
               = Ok ((), w') →
      (the_flag w' 0%nat = Some true
       ↔ full stuck_board ∧ ∀ move, blocked move stuck_board).
Proof.
  apply (checkIfGameOver_flag 0%nat world_stuck (mkSession 0%nat false)
           stuck_board);
    [reflexivity|reflexivity|split; [reflexivity|repeat constructor]
    |reflexivity].
Defined.

(** X12: when [nextMove] reports the end of the game.  On a board with
    cells, [nextMove] returns with [isGameOver] True exactly when the board
    it was called on was already full with every tile blocked in all four
    directions; that call then changes nothing on the board and draws
    nothing.  (So a board that becomes stuck by a spawn is reported one call
    late.) *)
Theorem nextMove_game_over (self : loc) (move : Move.t) (w : World)
    (o : SessionObj) (g : GameState.t) :
  sessions w !! self = Some o → grids w !! gameState o = Some g → wf g →
  0 < GameState.size g →
  (∃ n : nat, ∀ fuel, (n ≤ fuel)%nat →
     ∃ tp w', GameSession.nextMove fuel self move
                (mkWorld (sessions w) (grids w) tp) = Ok ((), w'))
  ∧ ∀ fuel w', GameSession.nextMove fuel self move w = Ok ((), w') →
      (the_flag w' self = Some true ↔ full g ∧ ∀ m, blocked m g)
      ∧ (the_flag w' self = Some true →
         the_state w' self = Some g ∧ tape w' = tape w).
Proof.
  intros Hs Hg Hwf Hsz.
  split; [by apply (nextMove_can_return self move w o g)|].
  intros fuel w' Hrun.
  destruct (nextMove_result fuel self move w o g w' Hs Hg Hwf Hrun)
    as (Hs' & _ & _ & Hcases).
  unfold the_flag, the_state. rewrite Hs'. simpl. split.
  - split.
    + intros [= Hover]. by destruct (game_over_settle move g Hwf Hover).
    + intros [Hfull Hblocked]. f_equal.
      rewrite (proj2 (settle_fixed move g Hwf) (Hblocked move)).
      by apply game_over_blocked.
  - intros [= Hover].
    destruct (game_over_settle move g Hwf Hover) as (Hfix & Hfull & _).
    rewrite Hfix in Hcases.
    destruct Hcases as [(_ & Hg' & Htape)|(x & y & Hin & He & _)]; [done|].
    by destruct (Hfull x y).
Qed.

Lemma nextMove_game_over_witness :
  (∃ n : nat, ∀ fuel, (n ≤ fuel)%nat →
     ∃ tp w', GameSession.nextMove fuel 0%nat Move.up
                (mkWorld (sessions world_stuck) (grids world_stuck) tp)
              = Ok ((), w'))
  ∧ ∀ fuel w', GameSession.nextMove fuel 0%nat Move.up world_stuck
               = Ok ((), w') →
      (the_flag w' 0%nat = Some true
       ↔ full stuck_board ∧ ∀ m, blocked m stuck_board)
      ∧ (the_flag w' 0%nat = Some true →
         the_state w' 0%nat = Some stuck_board
         ∧ tape w' = tape world_stuck).
Proof.
  apply (nextMove_game_over 0%nat Move.up world_stuck (mkSession 0%nat false)
           stuck_board);
    [reflexivity|reflexivity|split; [reflexivity|repeat constructor]
    |reflexivity].
Defined.

(** X13: the end of the game is final.  Once a [nextMove] has returned
    with [isGameOver] True, every further [nextMove], whatever the
    direction, returns (without drawing) with the same board and the flag
    still True. *)
Theorem game_over_is_final (self : loc) (move : Move.t) (w : World)
    (o : SessionObj) (g : GameState.t) (fuel : nat) (w' : World) :
  sessions w !! self = Some o → grids w !! gameState o = Some g → wf g →
  GameSession.nextMove fuel self move w = Ok ((), w') →
  the_flag w' self = Some true →
  ∀ move2,
    (∃ n : nat, ∀ fuel2, (n ≤ fuel2)%nat →
       ∃ w'', GameSession.nextMove fuel2 self move2 w' = Ok ((), w''))
    ∧ ∀ fuel2 w'', GameSession.nextMove fuel2 self move2 w' = Ok ((), w'') →
        the_state w'' self = Some g
        ∧ the_flag w'' self = Some true
        ∧ tape w'' = tape w'.
Proof.
  intros Hs Hg Hwf Hrun Hflag move2.
  destruct (nextMove_result fuel self move w o g w' Hs Hg Hwf Hrun)
    as (Hs' & _ & _ & Hcases).
  unfold the_flag in Hflag. rewrite Hs' in Hflag. simpl in Hflag.
  injection Hflag as Hover. pose proof (game_over_size _ Hover) as Hsz.
  destruct (game_over_settle move g Hwf Hover) as (Hfix & Hfull & Hblocked).
  rewrite Hfix in *.
  assert (Hg' : grids w' !! gameState o = Some g).
  { destruct Hcases as [(_ & ? & _)|(x & y & Hin & He & _)]; [done|].
    by destruct (Hfull x y). }
  assert (Hfix2 : settle move2 g = g) by by apply settle_fixed.
  split.
  - destruct (nextMove_fuel move2 g Hwf) as (n & Hn). exists n.
    intros fuel2 Hfuel2. destruct (Hn fuel2 Hfuel2) as [Hmove Hsuff].
    destruct (nextMove_steps fuel2 self move2 w' _ g Hs' Hg' Hwf Hmove Hsuff)
      as (w2 & _ & ->).
    rewrite Hfix2, (proj2 (full_all_cells g) Hfull). simpl. by eexists.
  - intros fuel2 w'' Hrun2.
    destruct (nextMove_result fuel2 self move2 w' _ g w'' Hs' Hg' Hwf Hrun2)
      as (Hs'' & _ & _ & Hcases2).
    rewrite Hfix2 in *. simpl in *.
    destruct Hcases2 as [(_ & Hg'' & Htape)|(x & y & Hin & He & _)];
      [|by destruct (Hfull x y)].
    unfold the_state, the_flag. rewrite Hs''. simpl.
    by rewrite Hover.
Qed.

Lemma game_over_is_final_witness :
  (∃ n : nat, ∀ fuel2, (n ≤ fuel2)%nat →
     ∃ w'', GameSession.nextMove fuel2 0%nat Move.left world_over
            = Ok ((), w''))
  ∧ ∀ fuel2 w'',
      GameSession.nextMove fuel2 0%nat Move.left world_over = Ok ((), w'') →
      the_state w'' 0%nat = Some stuck_board
      ∧ the_flag w'' 0%nat = Some true
      ∧ tape w'' = tape world_over.
Proof.
  apply (game_over_is_final 0%nat Move.up world_stuck (mkSession 0%nat false)
           stuck_board 1 world_over);
    [reflexivity|reflexivity|split; [reflexivity|repeat constructor]
    |vm_compute; reflexivity|vm_compute; reflexivity].
Defined.

(** X14: a board without cells.  On a session of size 0 or less (what
    [GameSession(0)] builds) every [getItem] fails its assertion,
    [addNumToRandomPoint] fails with the [ValueError] of
    [randint(0, size-1)], and yet [nextMove] returns normally: it changes
    nothing, draws nothing and leaves [isGameOver] False, because [isFull]
    and [isEmpty] both hold of a board without cells.  Such a game never
    ends. *)
Theorem nextMove_no_cells (self : loc) (move : Move.t) (w : World)
    (o : SessionObj) (g : GameState.t) :
  sessions w !! self = Some o → grids w !! gameState o = Some g → wf g →
  GameState.size g ≤ 0 →
  (∀ fuel, ∃ w', GameSession.nextMove fuel self move w = Ok ((), w')
                 ∧ the_state w' self = Some g
                 ∧ the_flag w' self = Some false
                 ∧ tape w' = tape w)
  ∧ (∀ val, GameSession.addNumToRandomPoint self val w = Raise ValueError)
  ∧ (∀ x y, GameState.getItem g x y = Raise AssertionError).
Proof.
  intros Hs Hg Hwf Hsz.
  assert (Hnone : ∀ x y, ¬ inside g (x, y)).
  { intros x y [Hx _]. simpl in Hx. lia. }
  split_and!.
  - intros fuel. pose proof (wf_no_cells g Hwf Hsz) as Hinit.
    assert (Hfix : settle move g = g) by (rewrite Hinit; apply settle_init).
    destruct (nextMove_steps fuel self move w o g Hs Hg Hwf)
      as (w2 & (Hs2 & Hg2 & Htape & _) & ->).
    { rewrite Hfix, Hinit. apply move_init. }
    { rewrite Hfix, Hinit. apply suffices_init. }
    rewrite Hfix in *.
    assert (Hfull : all_cells (λ v, bool_decide (v ≠ None)) g = true).
    { apply all_cells_true. intros x y Hin. by destruct (Hnone x y). }
    assert (Hover : game_over g = false).
    { unfold game_over.
      rewrite (proj2 (all_cells_true (λ v, bool_decide (v = None)) g)); [done|].
      intros x y Hin. by destruct (Hnone x y). }
    rewrite Hfull. simpl. exists w2. split_and!; [done| | |done].
    + unfold the_state. by rewrite Hs2.
    + unfold the_flag. by rewrite Hs2, Hover.
  - intros val. unfold GameSession.addNumToRandomPoint.
    rewrite (bind_Ok _ _ _ _ _ (read_session_ok _ _ _ Hs)).
    rewrite (bind_Ok _ _ _ _ _ (read_grid_ok _ _ _ Hg)).
    unfold GameSession.sample_into, GameSession.addNumToRandomPoint_state.
    by rewrite sample_no_cells.
  - intros x y. apply getItem_assert. apply Hnone.
Qed.

Lemma nextMove_no_cells_witness :
  (∀ fuel, ∃ w', GameSession.nextMove fuel 0%nat Move.up world0 = Ok ((), w')
                 ∧ the_state w' 0%nat = Some (GameState.init 0)
                 ∧ the_flag w' 0%nat = Some false
                 ∧ tape w' = tape world0)
  ∧ (∀ val, GameSession.addNumToRandomPoint 0%nat val world0
            = Raise ValueError)
  ∧ (∀ x y, GameState.getItem (GameState.init 0) x y = Raise AssertionError).
Proof.
  apply (nextMove_no_cells 0%nat Move.up world0 (mkSession 0%nat false)
           (GameState.init 0));
    [reflexivity|reflexivity|split; [reflexivity|constructor]|simpl; lia].
Defined.

(** X15: the sampler on a full board.  Called on a board with cells that
    has no empty cell, [addNumToRandomPoint] never returns: whatever is
    drawn, every draw hits a tile and the loop goes on ([nextMove] does not
    call it there).  Here: for every tape the loop is still running when the
    tape ends. *)
Theorem addNumToRandomPoint_full_board (self : loc) (w : World)
    (o : SessionObj) (g : GameState.t) (val : Z) :
  sessions w !! self = Some o → grids w !! gameState o = Some g → wf g →
  0 < GameState.size g → full g →
  GameSession.addNumToRandomPoint self val w = OutOfFuel.
Proof.
  intros Hs Hg Hwf Hsz Hfull. unfold GameSession.addNumToRandomPoint.
  rewrite (bind_Ok _ _ _ _ _ (read_session_ok _ _ _ Hs)).
  rewrite (bind_Ok _ _ _ _ _ (read_grid_ok _ _ _ Hg)).
  unfold GameSession.sample_into, GameSession.addNumToRandomPoint_state.
  by rewrite sample_full.
Qed.

Lemma addNumToRandomPoint_full_board_witness :
  GameSession.addNumToRandomPoint 0%nat 2 world_stuck = OutOfFuel.
Proof.
  apply (addNumToRandomPoint_full_board 0%nat world_stuck
           (mkSession 0%nat false) stuck_board 2);
    [reflexivity|reflexivity|split; [reflexivity|repeat constructor]
    |reflexivity|].
  intros x y [Hx Hy]. simpl in Hx, Hy.
  assert (Hcases : (x = 0 ∨ x = 1) ∧ (y = 0 ∨ y = 1)) by lia.
  destruct Hcases as [[-> | ->] [-> | ->]]; vm_compute; discriminate.
Defined.

(** X16: rejection sampling.  [addNumToRandomPoint] throws away every
    pair of draws that hits a tile and puts [val] into the cell of the first
    pair that hits an empty cell; the draws after that pair are left for
    later, and no other cell and no flag changes. *)
Theorem addNumToRandomPoint_rejects (self : loc) (w : World) (o : SessionObj)
    (g : GameState.t) (val : Z) (ps : list (Z * Z)) (r1 r2 : Z)
    (rest : list Z) :
  sessions w !! self = Some o → grids w !! gameState o = Some g → wf g →
  0 < GameState.size g →
  Forall (λ p, cell g (p.1 `mod` GameState.size g)
                      (p.2 `mod` GameState.size g) ≠ None) ps →
  cell g (r1 `mod` GameState.size g) (r2 `mod` GameState.size g) = None →
  tape w = draws ps ++ r1 :: r2 :: rest →
  ∃ w' g',
    GameSession.addNumToRandomPoint self val w = Ok ((), w')
    ∧ the_state w' self = Some g'
    ∧ the_flag w' self = the_flag w self
    ∧ tape w' = rest
    ∧ GameState.size g' = GameState.size g
    ∧ cell g' (r1 `mod` GameState.size g) (r2 `mod` GameState.size g)
      = Some val
    ∧ ∀ x y, (x, y) ≠ (r1 `mod` GameState.size g, r2 `mod` GameState.size g) →
             cell g' x y = cell g x y.
Proof.
  intros Hs Hg Hwf Hsz Hps Hhit Htape.
  pose proof (Z.mod_pos_bound r1 (GameState.size g) Hsz).
  pose proof (Z.mod_pos_bound r2 (GameState.size g) Hsz).
  eexists _, (upd g (r1 `mod` GameState.size g) (r2 `mod` GameState.size g)
                  (Some val)).
  split_and!.
  - eapply addNumToRandomPoint_ok; [exact Hs|exact Hg|].
    unfold GameSession.addNumToRandomPoint_state. rewrite Htape.
    apply sample_reject; [done..|].
    rewrite length_app, length_draws. simpl. lia.
  - unfold the_state. simpl. rewrite Hs. simpl. apply lookup_insert_eq.
  - done.
  - done.
  - apply size_upd.
  - by apply cell_upd_eq.
  - intros x y Hne. apply cell_upd_ne; [lia..|done].
Qed.

Lemma addNumToRandomPoint_rejects_witness :
  ∃ w' g',
    GameSession.addNumToRandomPoint 0%nat 2 world222_draws = Ok ((), w')
    ∧ the_state w' 0%nat = Some g'
    ∧ the_flag w' 0%nat = the_flag world222_draws 0%nat
    ∧ tape w' = [7]
    ∧ GameState.size g' = GameState.size row222
    ∧ cell g' (3 `mod` GameState.size row222) (0 `mod` GameState.size row222)
      = Some 2
    ∧ ∀ x y, (x, y) ≠ (3 `mod` GameState.size row222,
                        0 `mod` GameState.size row222) →
             cell g' x y = cell row222 x y.
Proof.
  apply (addNumToRandomPoint_rejects 0%nat world222_draws
           (mkSession 0%nat false) row222 2 [(0, 0)] 3 0 [7]);
    [reflexivity|reflexivity|split; [reflexivity|repeat constructor]
    |reflexivity| |reflexivity|reflexivity].
  constructor; [vm_compute; discriminate|constructor].
Defined.



(** X18: [getTileColor] never fails and always returns a colour: for every
    number the three components lie in 0..255; a number that is not one of
    the eleven keys 2, 4, ..., 2048 of the table (every tile above 2048, for
    one) gets the colour of ['super'], (60, 58, 50). *)
Theorem getTileColor_total (number : Z) :
  ∃ r g b,
    getTileColor number = Some (r, g, b)
    ∧ 0 ≤ r ≤ 255 ∧ 0 ≤ g ≤ 255 ∧ 0 ≤ b ≤ 255
    ∧ (number ∉ [2; 4; 8; 16; 32; 64; 128; 256; 512; 1024; 2048] →
       (r, g, b) = (60, 58, 50)).
Proof.
  destruct (decide (number ∈ [2; 4; 8; 16; 32; 64; 128; 256; 512; 1024; 2048]))
    as [Hin|Hout].
  - repeat (apply elem_of_cons in Hin as [-> | Hin];
            [eexists _, _, _; split; [vm_compute; reflexivity|];
             split_and!; try lia; intros Hout; exfalso; apply Hout;
             set_solver|]).
    by apply elem_of_nil in Hin.
  - assert (Hget : dict_get tileColorDict (KInt number) = None).
    { unfold tileColorDict. cbn [dict_get].
      repeat (rewrite decide_False;
              [|intros [= <-]; apply Hout; set_solver]).
      reflexivity. }
    exists 60, 58, 50. unfold getTileColor. rewrite Hget.
    rewrite bool_decide_false by (by intros [? ?]).
    split; [vm_compute; reflexivity|]. split_and!; (lia || done).
Qed.
